(** * Best-first graph search: the open queue, the close set and the engine

    A shallow embedding of [framework/graph_search/best_first_search.py].

    Python objects are modelled as values.  Object identity (the [is] test of
    [has_node], the identity hash that keys the heap dictionary) is modelled by
    a [node_id] carried by every search node: two nodes are the same object iff
    they are equal as records.  Python integers are [Z]; priorities and costs,
    which the engine only adds, negates and compares, are [Z] as well.
    Exceptions are values of [exn]; a computation that raises returns
    [Raise e] and its partial effects are dropped, since nothing in the file
    catches an exception. *)

From stdpp Require Import gmap strings list fin_maps.
From Stdlib Require Import ZArith Lia.

Local Open Scope Z_scope.

(** ** Outcomes of a call *)

Inductive exn : Type :=
  | AssertionError
  | KeyError
  | IndexError
  | AttributeError
  | TypeError.

(** [OutOfFuel] is the model's account of a [while True] loop that has not
    reached a [break] within the given number of iterations. *)
Inductive Outcome (A : Type) : Type :=
  | Ok (a : A)
  | Raise (e : exn)
  | OutOfFuel.

Arguments Ok {A} a.
Arguments Raise {A} e.
Arguments OutOfFuel {A}.

(** The value a call returned, if it returned. *)
Definition returned {A : Type} (o : Outcome A) : option A :=
  match o with Ok a => Some a | _ => None end.

(** ** Priority tuples

    [push_node] stores the tuple
    [(node.expanding_priority, -node.g_cost, hash(node.state))]; Python
    compares tuples lexicographically. *)

Definition PriorityTuple : Type := Z * Z * Z.

Definition tuple_ltb (a b : PriorityTuple) : bool :=
  let '(a1, a2, a3) := a in
  let '(b1, b2, b3) := b in
  if a1 <? b1 then true
  else if b1 <? a1 then false
  else if a2 <? b2 then true
  else if b2 <? a2 then false
  else a3 <? b3.

Definition tuple_le (a b : PriorityTuple) : Prop :=
  let '(a1, a2, a3) := a in
  let '(b1, b2, b3) := b in
  a1 < b1 \/ (a1 = b1 /\ (a2 < b2 \/ (a2 = b2 /\ a3 <= b3))).

(** ** The heap dictionary

    Modelled from the spec: [utils/heapdict.py] is not part of the sources.
    The spec asks for a priority structure with state-keyed update and
    removal whose pop "removes and returns the minimum-key node" and "fails if
    empty".  A heapdict is a dictionary from keys to priorities; it is kept
    here as the list of its items in insertion order.  Among items of equal
    priority [popitem] takes the one inserted first. *)

Abbreviation heapdict K := (list (K * PriorityTuple)) (only parsing).

Section Heapdict.
Context {K : Type} `{EqDecision K}.

Definition hd_keys (h : heapdict K) : list K := fst <$> h.

Definition hd_remove (k : K) (h : heapdict K) : heapdict K :=
  filter (fun e => e.1 <> k) h.

(** [h[k] = p] *)
Definition hd_setitem (k : K) (p : PriorityTuple) (h : heapdict K) : heapdict K :=
  hd_remove k h ++ [(k, p)].

Fixpoint hd_min (h : heapdict K) : option (K * PriorityTuple) :=
  match h with
  | [] => None
  | e :: t =>
      match hd_min t with
      | None => Some e
      | Some m => if tuple_ltb m.2 e.2 then Some m else Some e
      end
  end.

(** [h.peekitem()] *)
Definition hd_peekitem (h : heapdict K) : Outcome (K * PriorityTuple) :=
  match hd_min h with
  | None => Raise IndexError
  | Some e => Ok e
  end.

(** [h.popitem()] *)
Definition hd_popitem (h : heapdict K) : Outcome (K * PriorityTuple * heapdict K) :=
  match hd_min h with
  | None => Raise IndexError
  | Some e => Ok (e, hd_remove e.1 h)
  end.

(** [h.pop(k)] *)
Definition hd_pop (k : K) (h : heapdict K) : Outcome (PriorityTuple * heapdict K) :=
  match list_find (fun e => e.1 = k) h with
  | None => Raise KeyError
  | Some (_, e) => Ok (e.2, hd_remove k h)
  end.

(** [h.empty()] *)
Definition hd_empty (h : heapdict K) : bool :=
  match h with [] => true | _ => false end.

(** [len(h)] *)
Definition hd_len (h : heapdict K) : Z := Z.of_nat (length h).
End Heapdict.

(** ** The engine, for an arbitrary state type *)

(** Python's [hash] on states. *)
Class Hash (State : Type) : Type := hash : State -> Z.

Section Engine.
Context {State : Type} `{Countable State} `{Hash State}.

(** *** Search nodes

    Modelled from the spec: the class [SearchNode] lives in
    [graph_problem_interface.py], which is not part of the sources.  A node
    holds its state, a back-reference to the node it was expanded from,
    the cost and name of the edge taken, the cumulative [g_cost] (parent's
    [g_cost] plus [operator_cost]) and the [expanding_priority] the
    strategy assigns after construction. *)
#[warnings="-register-all"]
Inductive SearchNode : Type := mkSearchNode {
  node_id : nat;
  state : State;
  parent_search_node : option SearchNode;
  operator_cost : Z;
  operator_name : string;
  expanding_priority : Z;
  g_cost : Z
}.

Definition SearchNode_eq_dec : forall x y : SearchNode, {x = y} + {x <> y}.
Proof.
  fix IH 1.
  intros [i1 s1 p1 c1 n1 e1 g1] [i2 s2 p2 c2 n2 e2 g2].
  destruct (decide (i1 = i2)); [|right; congruence].
  destruct (decide (s1 = s2)); [|right; congruence].
  destruct (decide (c1 = c2)); [|right; congruence].
  destruct (decide (n1 = n2)); [|right; congruence].
  destruct (decide (e1 = e2)); [|right; congruence].
  destruct (decide (g1 = g2)); [|right; congruence].
  destruct p1 as [q1|], p2 as [q2|]; try (right; congruence).
  - destruct (IH q1 q2); [left; congruence | right; congruence].
  - left; congruence.
Defined.

#[global] Instance SearchNode_eq : EqDecision SearchNode := SearchNode_eq_dec.

(** [SearchNode(state, parent_search_node, operator_cost, operator_name)]:
    the priority is left unset (written 0 here) until the engine assigns
    it. *)
Definition SearchNode_init (id : nat) (s : State) (parent : option SearchNode)
    (cost : Z) (name : string) : SearchNode :=
  {| node_id := id; state := s; parent_search_node := parent;
     operator_cost := cost; operator_name := name;
     expanding_priority := 0;
     g_cost := match parent with
               | Some p => cost + g_cost p
               | None => cost
               end |}.

(** [node.expanding_priority = p] *)
Definition set_expanding_priority (n : SearchNode) (p : Z) : SearchNode :=
  {| node_id := node_id n; state := state n;
     parent_search_node := parent_search_node n;
     operator_cost := operator_cost n; operator_name := operator_name n;
     expanding_priority := p; g_cost := g_cost n |}.

(** Walking the parent links from a node back to the root. *)
Fixpoint traverse_back_to_root (n : SearchNode) : list SearchNode :=
  n :: match parent_search_node n with
       | Some p => traverse_back_to_root p
       | None => []
       end.

(** Modelled from the spec: "the solution path is reconstructed by walking
    parent links from the goal node to the initial node and reversing". *)
Definition make_states_path (n : SearchNode) : list State :=
  reverse (state <$> traverse_back_to_root n).

(** The tuple [push_node] computes for a node. *)
Definition node_priority_tuple (n : SearchNode) : PriorityTuple :=
  (expanding_priority n, - g_cost n, hash (state n)).

(** *** [SearchNodesPriorityQueue]

    The two attributes [_nodes_queue] and [_state_to_search_node_mapping]
    carry the prefix [pq_].  [has_state], [get_node_by_state] and [__len__],
    which both classes define, are [open_has_state],
    [open_get_node_by_state] and [open_len] here. *)
Record SearchNodesPriorityQueue : Type := mkQueue {
  pq_nodes_queue : heapdict SearchNode;
  pq_state_to_search_node_mapping : gmap State SearchNode
}.

(** [SearchNodesPriorityQueue.__init__] *)
Definition SearchNodesPriorityQueue_init : SearchNodesPriorityQueue :=
  {| pq_nodes_queue := []; pq_state_to_search_node_mapping := ∅ |}.

Definition open_has_state (q : SearchNodesPriorityQueue) (s : State) : bool :=
  bool_decide (is_Some (pq_state_to_search_node_mapping q !! s)).

Definition open_get_node_by_state (q : SearchNodesPriorityQueue) (s : State)
    : option SearchNode :=
  pq_state_to_search_node_mapping q !! s.

(** The assertion, then the write to the heap, then the write to the
    mapping. *)
Definition push_node (q : SearchNodesPriorityQueue) (node : SearchNode)
    : Outcome SearchNodesPriorityQueue :=
  if bool_decide (is_Some (pq_state_to_search_node_mapping q !! state node))
  then Raise AssertionError
  else Ok {| pq_nodes_queue :=
               hd_setitem node (node_priority_tuple node) (pq_nodes_queue q);
             pq_state_to_search_node_mapping :=
               <[state node := node]> (pq_state_to_search_node_mapping q) |}.

(** [popitem] on the heap, then [del] on the mapping, which raises
    [KeyError] for a missing key. *)
Definition pop_next_node (q : SearchNodesPriorityQueue)
    : Outcome (SearchNode * SearchNodesPriorityQueue) :=
  match hd_popitem (pq_nodes_queue q) with
  | Ok ((node, _), h') =>
      match pq_state_to_search_node_mapping q !! state node with
      | None => Raise KeyError
      | Some _ =>
          Ok (node, {| pq_nodes_queue := h';
                       pq_state_to_search_node_mapping :=
                         delete (state node) (pq_state_to_search_node_mapping q) |})
      end
  | Raise e => Raise e
  | OutOfFuel => OutOfFuel
  end.

Definition peek_next_node (q : SearchNodesPriorityQueue) : Outcome SearchNode :=
  match hd_peekitem (pq_nodes_queue q) with
  | Ok (node, _) => Ok node
  | Raise e => Raise e
  | OutOfFuel => OutOfFuel
  end.

(** [del] on the mapping first, then [pop] on the heap; there is no
    assertion. *)
Definition extract_node (q : SearchNodesPriorityQueue) (node : SearchNode)
    : Outcome SearchNodesPriorityQueue :=
  match pq_state_to_search_node_mapping q !! state node with
  | None => Raise KeyError
  | Some _ =>
      match hd_pop node (pq_nodes_queue q) with
      | Ok (_, h') =>
          Ok {| pq_nodes_queue := h';
                pq_state_to_search_node_mapping :=
                  delete (state node) (pq_state_to_search_node_mapping q) |}
      | Raise e => Raise e
      | OutOfFuel => OutOfFuel
      end
  end.

Definition is_empty (q : SearchNodesPriorityQueue) : bool :=
  hd_empty (pq_nodes_queue q).

Definition open_len (q : SearchNodesPriorityQueue) : Z :=
  hd_len (pq_nodes_queue q).

(** *** [SearchNodesCollection]

    The attribute [_state_to_search_node_mapping] carries the prefix [col_];
    [has_state], [get_node_by_state] and [__len__] are [close_has_state],
    [close_get_node_by_state] and [close_len]. *)
Record SearchNodesCollection : Type := mkCollection {
  col_state_to_search_node_mapping : gmap State SearchNode
}.

Definition SearchNodesCollection_init : SearchNodesCollection :=
  {| col_state_to_search_node_mapping := ∅ |}.

Definition add_node (c : SearchNodesCollection) (node : SearchNode)
    : Outcome SearchNodesCollection :=
  if bool_decide (is_Some (col_state_to_search_node_mapping c !! state node))
  then Raise AssertionError
  else Ok {| col_state_to_search_node_mapping :=
               <[state node := node]> (col_state_to_search_node_mapping c) |}.

Definition remove_node (c : SearchNodesCollection) (node : SearchNode)
    : Outcome SearchNodesCollection :=
  if bool_decide (is_Some (col_state_to_search_node_mapping c !! state node))
  then Ok {| col_state_to_search_node_mapping :=
               delete (state node) (col_state_to_search_node_mapping c) |}
  else Raise AssertionError.

(** [node.state in mapping and node is mapping[node.state]] *)
Definition has_node (c : SearchNodesCollection) (node : SearchNode) : bool :=
  bool_decide (is_Some (col_state_to_search_node_mapping c !! state node))
  && bool_decide (col_state_to_search_node_mapping c !! state node = Some node).

Definition close_has_state (c : SearchNodesCollection) (s : State) : bool :=
  bool_decide (is_Some (col_state_to_search_node_mapping c !! s)).

Definition close_get_node_by_state (c : SearchNodesCollection) (s : State)
    : option SearchNode :=
  col_state_to_search_node_mapping c !! s.

Definition close_len (c : SearchNodesCollection) : Z :=
  Z.of_nat (size (col_state_to_search_node_mapping c)).

(** *** The problem being solved

    Modelled from the spec: [GraphProblem] and [OperatorResult] are declared
    in [graph_problem_interface.py], which is not part of the sources.  A
    problem exposes its initial state, the zero of its cost domain, a goal
    test and an expansion function giving a finite sequence of operator
    results. *)
Record OperatorResult : Type := mkOperatorResult {
  successor_state : State;
  result_operator_cost : Z;
  result_operator_name : string
}.

Record GraphProblem : Type := mkGraphProblem {
  initial_state : State;
  get_zero_cost : Z;
  is_goal : State -> bool;
  expand_state_with_costs : State -> list OperatorResult
}.

Inductive StopReason : Type :=
  | CompletedRunSuccessfully
  | ExceededMaxNrStatesToExpand.

(** The result of a run; the solver and problem references and the elapsed
    wall time are left out. *)
Record SearchResult : Type := mkSearchResult {
  solution_path : option (list State);
  nr_expanded_states : Z;
  result_max_nr_stored_states : Z;
  stop_reason : StopReason
}.

(** *** The solver object

    The record holds the attributes [__init__] sets.  Attributes a strategy
    creates on the object for its own use are not part of it. *)
Record BestFirstSearch : Type := mkBestFirstSearch {
  open : option SearchNodesPriorityQueue;
  close : option SearchNodesCollection;
  use_close : bool;
  max_nr_states_to_expand : option Z;
  open_criterion : option (SearchNode -> bool);
  max_nr_stored_states : Z
}.

(** [BestFirstSearch.__init__] *)
Definition BestFirstSearch_init (use_close : bool)
    (max_nr_states_to_expand : option Z)
    (open_criterion : option (SearchNode -> bool)) : BestFirstSearch :=
  {| open := None; close := None; use_close := use_close;
     max_nr_states_to_expand := max_nr_states_to_expand;
     open_criterion := open_criterion; max_nr_stored_states := 0 |}.

(** [self.open = q] and [self.close = c] *)
Definition set_open (b : BestFirstSearch) (q : option SearchNodesPriorityQueue)
    : BestFirstSearch :=
  {| open := q; close := close b; use_close := use_close b;
     max_nr_states_to_expand := max_nr_states_to_expand b;
     open_criterion := open_criterion b;
     max_nr_stored_states := max_nr_stored_states b |}.

Definition set_close (b : BestFirstSearch) (c : option SearchNodesCollection)
    : BestFirstSearch :=
  {| open := open b; close := c; use_close := use_close b;
     max_nr_states_to_expand := max_nr_states_to_expand b;
     open_criterion := open_criterion b;
     max_nr_stored_states := max_nr_stored_states b |}.

(** *** The history of a run

    The engine's own steps are recorded in a history that the Python code
    does not keep: seeding [open], extracting a node, and handling one
    successor (with whether it was handed to the admission hook).  Each
    event carries [len(open) + len(close)] as it is right after the step.
    The history only observes; no step of the run reads it. *)
Inductive Event : Type :=
  | EvSeeded (node : SearchNode) (stored : Z)
  | EvExtracted (node : SearchNode) (stored : Z)
  | EvSuccessor (node : SearchNode) (offered : bool) (stored : Z).

Definition event_stored (e : Event) : Z :=
  match e with
  | EvSeeded _ c | EvExtracted _ c | EvSuccessor _ _ c => c
  end.

(** The state threaded through a run: the solver object, the identity of the
    next node object to be created, and the history. *)
Record Run : Type := mkRun {
  self : BestFirstSearch;
  next_node_id : nat;
  history : list Event
}.

(** [len(open) + len(close)], read off a solver object without failing. *)
Definition nr_stored (b : BestFirstSearch) : Z :=
  match open b with Some q => open_len q | None => 0 end
  + match close b with Some c => close_len c | None => 0 end.

(** *** Binding outcomes *)
Definition Outcome_bind {A B : Type} (f : A -> Outcome B) (m : Outcome A)
    : Outcome B :=
  match m with
  | Ok a => f a
  | Raise e => Raise e
  | OutOfFuel => OutOfFuel
  end.

#[global] Instance Outcome_mbind : MBind Outcome := @Outcome_bind.
#[global] Instance Outcome_mret : MRet Outcome := @Ok.

(** *** The methods a concrete strategy supplies

    [_calc_node_expanding_priority] and [_open_successor_node] are abstract
    and [_init_solver] is a hook with an empty default; a strategy is an
    instance of this interface.  The two hooks that act on the solver are
    arbitrary transformers of the solver object and may raise. *)
Class Strategy : Type := mkStrategy {
  _init_solver : GraphProblem -> BestFirstSearch -> Outcome BestFirstSearch;
  _calc_node_expanding_priority : BestFirstSearch -> SearchNode -> Z;
  _open_successor_node :
    GraphProblem -> SearchNode -> BestFirstSearch -> Outcome BestFirstSearch
}.

Context `{Strategy}.

(** The local function of [solve_problem]. *)
Definition _get_current_nr_stored_states (b : BestFirstSearch) : Outcome Z :=
  match open b with
  | None => Raise TypeError
  | Some q =>
      Ok (open_len q + match close b with
                       | Some c => close_len c
                       | None => 0
                       end)
  end.

(** The default [_extract_next_search_node_to_expand]. *)
Definition _extract_next_search_node_to_expand (problem : GraphProblem)
    (b : BestFirstSearch) : Outcome (option SearchNode * BestFirstSearch) :=
  match open b with
  | None => Raise AttributeError
  | Some q =>
      if is_empty q then Ok (None, b)
      else
        '(node_to_expand, q') ← pop_next_node q;
        let b := set_open b (Some q') in
        if use_close b then
          match close b with
          | None => Raise AttributeError
          | Some c =>
              c' ← add_node c node_to_expand;
              Ok (Some node_to_expand, set_close b (Some c'))
          end
        else Ok (Some node_to_expand, b)
  end.

(** [self.open_criterion is None or self.open_criterion(successor_node)] *)
Definition criterion_accepts (b : BestFirstSearch) (n : SearchNode) : bool :=
  match open_criterion b with
  | None => true
  | Some criterion => criterion n
  end.

(** One pass of the body of the [for] loop over the operator results. *)
Definition handle_successor (problem : GraphProblem)
    (next_node_to_expand : SearchNode) (operator_result : OperatorResult)
    (max_stored : Z) (r : Run) : Outcome (Z * Run) :=
  let successor_node :=
    SearchNode_init (next_node_id r) (successor_state operator_result)
      (Some next_node_to_expand) (result_operator_cost operator_result)
      (result_operator_name operator_result) in
  let successor_node :=
    set_expanding_priority successor_node
      (_calc_node_expanding_priority (self r) successor_node) in
  let offered := criterion_accepts (self r) successor_node in
  b ← (if offered then _open_successor_node problem successor_node (self r)
       else Ok (self r));
  n ← _get_current_nr_stored_states b;
  Ok (Z.max max_stored n,
      {| self := b; next_node_id := S (next_node_id r);
         history := history r ++ [EvSuccessor successor_node offered n] |}).

Fixpoint for_each_successor (problem : GraphProblem)
    (next_node_to_expand : SearchNode) (results : list OperatorResult)
    (max_stored : Z) (r : Run) : Outcome (Z * Run) :=
  match results with
  | [] => Ok (max_stored, r)
  | operator_result :: rest =>
      '(max_stored, r) ←
        handle_successor problem next_node_to_expand operator_result max_stored r;
      for_each_successor problem next_node_to_expand rest max_stored r
  end.

(** The local variables of [solve_problem] when the loop is left. *)
Record Locals : Type := mkLocals {
  final_search_node : option SearchNode;
  loc_nr_expanded_states : Z;
  loc_max_nr_stored_states : Z;
  exceeded_max_nr_expanded_states : bool
}.

(** [self.max_nr_states_to_expand is not None and
     nr_expanded_states >= self.max_nr_states_to_expand] *)
Definition budget_reached (b : BestFirstSearch) (nr_expanded : Z) : bool :=
  match max_nr_states_to_expand b with
  | None => false
  | Some k => k <=? nr_expanded
  end.

(** The [while True] loop; [fuel] bounds the number of iterations. *)
Fixpoint solve_loop (fuel : nat) (problem : GraphProblem)
    (nr_expanded max_stored : Z) (r : Run) : Outcome (Locals * Run) :=
  match fuel with
  | O => OutOfFuel
  | S fuel =>
      '(next_node_to_expand, b) ←
        _extract_next_search_node_to_expand problem (self r);
      match next_node_to_expand with
      | None =>
          Ok (mkLocals None nr_expanded max_stored false,
              {| self := b; next_node_id := next_node_id r;
                 history := history r |})
      | Some node =>
          let r := {| self := b; next_node_id := next_node_id r;
                      history := history r ++ [EvExtracted node (nr_stored b)] |} in
          if is_goal problem (state node) then
            Ok (mkLocals (Some node) nr_expanded max_stored false, r)
          else if budget_reached (self r) nr_expanded then
            Ok (mkLocals None nr_expanded max_stored true, r)
          else
            let nr_expanded := nr_expanded + 1 in
            '(max_stored, r) ←
              for_each_successor problem node
                (expand_state_with_costs problem (state node)) max_stored r;
            solve_loop fuel problem nr_expanded max_stored r
      end
  end.

(** [BestFirstSearch.solve_problem] *)
Definition solve_problem (fuel : nat) (b : BestFirstSearch)
    (problem : GraphProblem) : Outcome (SearchResult * Run) :=
  let b := set_open b (Some SearchNodesPriorityQueue_init) in
  let b := set_close b (if use_close b then Some SearchNodesCollection_init
                        else None) in
  b ← _init_solver problem b;
  let initial_search_node :=
    SearchNode_init 0%nat (initial_state problem) None (get_zero_cost problem) "" in
  let initial_search_node :=
    set_expanding_priority initial_search_node
      (_calc_node_expanding_priority b initial_search_node) in
  match open b with
  | None => Raise AttributeError
  | Some q =>
      q' ← push_node q initial_search_node;
      let b := set_open b (Some q') in
      n ← _get_current_nr_stored_states b;
      let max_nr_stored := Z.max 0 n in
      '(locals, r) ←
        solve_loop fuel problem 0 max_nr_stored
          {| self := b; next_node_id := 1%nat;
             history := [EvSeeded initial_search_node n] |};
      let stop_reason :=
        if exceeded_max_nr_expanded_states locals
        then ExceededMaxNrStatesToExpand else CompletedRunSuccessfully in
      Ok ({| solution_path :=
               match final_search_node locals with
               | Some node => Some (make_states_path node)
               | None => None
               end;
             nr_expanded_states := loc_nr_expanded_states locals;
             result_max_nr_stored_states := loc_max_nr_stored_states locals;
             stop_reason := stop_reason |}, r)
  end.

(** ** Predicates used to state the properties *)

(** The nodes held by the priority structure of [open]. *)
Definition open_nodes (q : SearchNodesPriorityQueue) : list SearchNode :=
  hd_keys (pq_nodes_queue q).

(** The state-to-node mapping and the priority structure of a queue hold
    the same nodes: a state maps to a node exactly when that node, with
    that state, is a key of the heap, and no node is held twice. *)
Definition queue_sync (q : SearchNodesPriorityQueue) : Prop :=
  NoDup (open_nodes q) /\
  forall s n, pq_state_to_search_node_mapping q !! s = Some n <->
              (n ∈ open_nodes q /\ state n = s).

(** Every priority stored in the heap is the tuple of its node. *)
Definition queue_priorities (q : SearchNodesPriorityQueue) : Prop :=
  forall n p, (n, p) ∈ pq_nodes_queue q -> p = node_priority_tuple n.

(** The operations of the queue that change it. *)
Inductive QueueOp : Type :=
  | OpPush (node : SearchNode)
  | OpPop
  | OpExtract (node : SearchNode).

Definition run_op (q : SearchNodesPriorityQueue) (op : QueueOp)
    : Outcome SearchNodesPriorityQueue :=
  match op with
  | OpPush node => push_node q node
  | OpPop => '(_, q') ← pop_next_node q; Ok q'
  | OpExtract node => extract_node q node
  end.

(** The stated preconditions: push of an absent state, pop of a non-empty
    queue, extract of a node the queue holds. *)
Definition op_precondition (q : SearchNodesPriorityQueue) (op : QueueOp) : Prop :=
  match op with
  | OpPush node => open_has_state q (state node) = false
  | OpPop => is_empty q = false
  | OpExtract node => open_get_node_by_state q (state node) = Some node
  end.

Fixpoint run_ops (q : SearchNodesPriorityQueue) (ops : list QueueOp)
    : Outcome SearchNodesPriorityQueue :=
  match ops with
  | [] => Ok q
  | op :: rest => q' ← run_op q op; run_ops q' rest
  end.

(** Every operation of the sequence meets its precondition in the queue it
    is applied to. *)
Fixpoint preconditions_hold (q : SearchNodesPriorityQueue) (ops : list QueueOp)
    : Prop :=
  match ops with
  | [] => True
  | op :: rest =>
      op_precondition q op /\
      match run_op q op with
      | Ok q' => preconditions_hold q' rest
      | _ => True
      end
  end.


(** A node is stored by the solver: it is in [open] or in [close]. *)
Definition stored (b : BestFirstSearch) (n : SearchNode) : Prop :=
  (exists q, open b = Some q /\ n ∈ open_nodes q) \/
  (exists c s, close b = Some c /\
               col_state_to_search_node_mapping c !! s = Some n).

(** Assumptions on a strategy.  Each one is a frame condition on the hooks
    and is stated where a property needs it. *)

(** The hooks leave an attribute of the solver object as it is. *)
Definition strategy_preserves {A : Type} (attribute : BestFirstSearch -> A) : Prop :=
  (forall problem b b',
      _init_solver problem b = Ok b' -> attribute b' = attribute b) /\
  (forall problem n b b',
      _open_successor_node problem n b = Ok b' -> attribute b' = attribute b).

(** The hooks store no node of their own making: after the admission hook
    every stored node is the offered one or was stored before, and
    [_init_solver] stores nothing new. *)
Definition strategy_stores_offered_nodes : Prop :=
  (forall problem b b' m,
      _init_solver problem b = Ok b' -> stored b' m -> stored b m) /\
  (forall problem n b b' m,
      _open_successor_node problem n b = Ok b' ->
      stored b' m -> m = n \/ stored b m).

(** The hooks return. *)
Definition strategy_terminates : Prop :=
  (forall problem b, _init_solver problem b <> OutOfFuel) /\
  (forall problem n b, _open_successor_node problem n b <> OutOfFuel).

(** The successor node the engine builds for an operator result. *)
Definition successor_node_of (r : Run) (parent : SearchNode)
    (operator_result : OperatorResult) : SearchNode :=
  let n := SearchNode_init (next_node_id r) (successor_state operator_result)
             (Some parent) (result_operator_cost operator_result)
             (result_operator_name operator_result) in
  set_expanding_priority n (_calc_node_expanding_priority (self r) n).

(** The run as it is right after a node has been extracted. *)
Definition after_extraction (r : Run) (node : SearchNode) (b : BestFirstSearch)
    : Run :=
  {| self := b; next_node_id := next_node_id r;
     history := history r ++ [EvExtracted node (nr_stored b)] |}.

Definition is_extraction (e : Event) : bool :=
  match e with EvExtracted _ _ => true | _ => false end.

(** The number of extractions recorded in a history. *)
Definition nr_extractions (l : list Event) : Z :=
  Z.of_nat (length (filter (fun e => is_extraction e = true) l)).

(** The solver object as [solve_problem] resets it before the hooks run. *)
Definition reset_solver (b : BestFirstSearch) : BestFirstSearch :=
  set_close (set_open b (Some SearchNodesPriorityQueue_init))
            (if use_close b then Some SearchNodesCollection_init else None).

(** The initial search node of a run, with its priority assigned. *)
Definition initial_search_node_of (problem : GraphProblem) (b : BestFirstSearch)
    : SearchNode :=
  let n := SearchNode_init 0%nat (initial_state problem) None
             (get_zero_cost problem) "" in
  set_expanding_priority n (_calc_node_expanding_priority b n).

(** The result assembled from the local variables of [solve_problem]. *)
Definition result_of_locals (locals : Locals) : SearchResult :=
  {| solution_path :=
       match final_search_node locals with
       | Some node => Some (make_states_path node)
       | None => None
       end;
     nr_expanded_states := loc_nr_expanded_states locals;
     result_max_nr_stored_states := loc_max_nr_stored_states locals;
     stop_reason :=
       if exceeded_max_nr_expanded_states locals
       then ExceededMaxNrStatesToExpand else CompletedRunSuccessfully |}.

(** The run as [solve_problem] enters its loop. *)
Definition seeded_run (b : BestFirstSearch) (initial_search_node : SearchNode)
    : Run :=
  {| self := b; next_node_id := 1%nat;
     history := [EvSeeded initial_search_node (nr_stored b)] |}.

(** [peak] is the largest number of stored nodes a history records. *)
Definition is_peak (l : list Event) (peak : Z) : Prop :=
  (forall e, e ∈ l -> event_stored e <= peak) /\
  (exists e, e ∈ l /\ event_stored e = peak).

(** The state of the collections right after [node] has been extracted:
    [open] no longer holds it and, with [use_close], [close] holds that very
    node. *)
Definition just_extracted (b : BestFirstSearch) (node : SearchNode) : Prop :=
  (exists q, open b = Some q /\ (node ∉ open_nodes q) /\
             open_has_state q (state node) = false) /\
  (use_close b = true ->
   exists c, close b = Some c /\ has_node c node = true).

(** The last step of the run was the extraction of [node]. *)
Definition extracted_last (r : Run) (node : SearchNode) : Prop :=
  last (history r) = Some (EvExtracted node (nr_stored (self r))) /\
  just_extracted (self r) node.


(** [s'] is the state of one of the operator results of [s]. *)
Definition is_successor (problem : GraphProblem) (s s' : State) : Prop :=
  exists operator_result,
    operator_result ∈ expand_state_with_costs problem s /\
    successor_state operator_result = s'.

(** Every state of the sequence but the first is a successor of the one
    before it. *)
Fixpoint path_of_problem (problem : GraphProblem) (path : list State) : Prop :=
  match path with
  | s :: rest =>
      match rest with
      | s' :: _ => is_successor problem s s' /\ path_of_problem problem rest
      | [] => True
      end
  | [] => True
  end.

(** The ancestry of a node follows the problem: the root holds the initial
    state and every other node holds a successor of its parent's state. *)
Fixpoint expanded_from_root (problem : GraphProblem) (n : SearchNode) : Prop :=
  match parent_search_node n with
  | Some p =>
      is_successor problem (state p) (state n) /\ expanded_from_root problem p
  | None => state n = initial_state problem
  end.

(** The queue the solver holds as [open], if any, is in sync. *)
Definition open_in_sync (b : BestFirstSearch) : Prop :=
  forall q, open b = Some q -> queue_sync q.

(** [_init_solver] as the file defines it: it does nothing. *)
Definition default_init_solver (problem : GraphProblem) (b : BestFirstSearch)
    : Prop :=
  _init_solver problem (reset_solver b) = Ok (reset_solver b).

(** The queue that holds one node. *)
Definition singleton_queue (n : SearchNode) : SearchNodesPriorityQueue :=
  {| pq_nodes_queue := [(n, node_priority_tuple n)];
     pq_state_to_search_node_mapping := <[state n := n]> ∅ |}.



End Engine.

Arguments SearchNode State : clear implicits.
Arguments OperatorResult State : clear implicits.
Arguments GraphProblem State : clear implicits.
Arguments SearchResult State : clear implicits.
Arguments Event State : clear implicits.
Arguments QueueOp State : clear implicits.
Arguments SearchNodesPriorityQueue State {_ _}.
Arguments SearchNodesCollection State {_ _}.
Arguments BestFirstSearch State {_ _}.
Arguments Run State {_ _}.
Arguments Locals State : clear implicits.
Arguments Strategy State {_ _}.

(** ** A sample strategy and sample problems

    The engine is abstract; to run it a strategy has to be supplied.  The
    strategy below is uniform-cost search, written against the interface of
    the engine: the priority of a node is its [g_cost]; a successor is
    pushed when its state is in neither collection, replaces the node [open]
    holds for its state when it is cheaper, and is dropped otherwise.  It is
    not part of the file under study and serves to exercise it. *)

Module Sample.

#[global] Instance string_hash : Hash string :=
  fun s => Z.of_nat (String.length s).

Definition ucs_open_successor_node (problem : GraphProblem string)
    (successor_node : SearchNode string) (b : BestFirstSearch string)
    : Outcome (BestFirstSearch string) :=
  match open b with
  | None => Raise AttributeError
  | Some q =>
      match open_get_node_by_state q (state successor_node) with
      | Some already_found =>
          if g_cost successor_node <? g_cost already_found then
            q1 ← extract_node q already_found;
            q2 ← push_node q1 successor_node;
            Ok (set_open b (Some q2))
          else Ok b
      | None =>
          if match close b with
             | Some c => close_has_state c (state successor_node)
             | None => false
             end
          then Ok b
          else
            q1 ← push_node q successor_node;
            Ok (set_open b (Some q1))
      end
  end.

#[global] Instance UniformCost : Strategy string :=
  {| _init_solver := fun _ b => Ok b;
     _calc_node_expanding_priority := fun _ n => g_cost n;
     _open_successor_node := ucs_open_successor_node |}.

(** The linear chain A -> B -> C -> D with unit edge costs and goal D. *)
Definition chain_expand (s : string) : list (OperatorResult string) :=
  if String.eqb s "A" then [mkOperatorResult "B" 1 "a_to_b"]
  else if String.eqb s "B" then [mkOperatorResult "C" 1 "b_to_c"]
  else if String.eqb s "C" then [mkOperatorResult "D" 1 "c_to_d"]
  else [].

Definition chain : GraphProblem string :=
  {| initial_state := "A"; get_zero_cost := 0;
     is_goal := fun s => String.eqb s "D";
     expand_state_with_costs := chain_expand |}.

(** A problem with no successors and no goal. *)
Definition dead_end : GraphProblem string :=
  {| initial_state := "A"; get_zero_cost := 0;
     is_goal := fun _ => false;
     expand_state_with_costs := fun _ => [] |}.

(** A diamond A -> {B, C} -> D in which D is first reached through the
    dearer branch and then replaced in [open]. *)
Definition diamond_expand (s : string) : list (OperatorResult string) :=
  if String.eqb s "A" then
    [mkOperatorResult "B" 1 "a_to_b"; mkOperatorResult "C" 2 "a_to_c"]
  else if String.eqb s "B" then [mkOperatorResult "D" 5 "b_to_d"]
  else if String.eqb s "C" then [mkOperatorResult "D" 1 "c_to_d"]
  else [].

Definition diamond : GraphProblem string :=
  {| initial_state := "A"; get_zero_cost := 0;
     is_goal := fun s => String.eqb s "D";
     expand_state_with_costs := diamond_expand |}.

Definition solver (use_close : bool) (max_nr_states_to_expand : option Z)
    : BestFirstSearch string :=
  BestFirstSearch_init use_close max_nr_states_to_expand None.

(** Three nodes used to exercise the collections. *)
Definition node_a : SearchNode string :=
  set_expanding_priority (SearchNode_init 0 "A" None 0 "") 0.
Definition node_b : SearchNode string :=
  set_expanding_priority (SearchNode_init 1 "B" (Some node_a) 1 "a_to_b") 1.
Definition node_c : SearchNode string :=
  set_expanding_priority (SearchNode_init 2 "C" (Some node_a) 3 "a_to_c") 1.
Definition node_d : SearchNode string :=
  set_expanding_priority (SearchNode_init 3 "D" (Some node_c) 1 "c_to_d") 4.

(** A queue and a close set that hold [node_a] only. *)
Definition queue_a : SearchNodesPriorityQueue string :=
  {| pq_nodes_queue := [(node_a, node_priority_tuple node_a)];
     pq_state_to_search_node_mapping := {[ "A" := node_a ]} |}.

(** The queue obtained by pushing [node_b] and then [node_c], two nodes of
    equal priority. *)
Definition queue_bc : SearchNodesPriorityQueue string :=
  {| pq_nodes_queue := [(node_b, node_priority_tuple node_b);
                        (node_c, node_priority_tuple node_c)];
     pq_state_to_search_node_mapping := {[ "B" := node_b; "C" := node_c ]} |}.

Definition close_a : SearchNodesCollection string :=
  {| col_state_to_search_node_mapping := {[ "A" := node_a ]} |}.

(** A second node object for the state A. *)
Definition node_a_again : SearchNode string :=
  set_expanding_priority (SearchNode_init 7 "A" (Some node_b) 1 "b_to_a") 2.

(** A solver whose criterion accepts no successor. *)
Definition rejecting_solver : BestFirstSearch string :=
  BestFirstSearch_init true None (Some (fun _ => false)).

(** A solver about to extract from [queue_a] while [close_a] already holds
    the state A. *)
Definition clashing_solver : BestFirstSearch string :=
  set_close (set_open (solver true None) (Some queue_a)) (Some close_a).

(** A solver with [use_close] whose [open] is [queue_bc] and whose [close]
    is empty. *)
Definition loaded_solver : BestFirstSearch string :=
  set_close (set_open (solver true None) (Some queue_bc))
            (Some SearchNodesCollection_init).

(** The chain entered at its goal D. *)
Definition chain_from_goal : GraphProblem string :=
  {| initial_state := "D"; get_zero_cost := 0;
     is_goal := fun s => String.eqb s "D";
     expand_state_with_costs := chain_expand |}.

(** A run about to enter the loop with a spent budget of 0 expansions, its
    [open] holding one node. *)
Definition spent_run (node : SearchNode string) : Run string :=
  seeded_run
    {| open := Some {| pq_nodes_queue := [(node, node_priority_tuple node)];
                       pq_state_to_search_node_mapping := {[ state node := node ]} |};
       close := Some SearchNodesCollection_init;
       use_close := true;
       max_nr_states_to_expand := Some 0;
       open_criterion := None;
       max_nr_stored_states := 0 |}
    node.

End Sample.

(** * Properties *)

(** ** Lexicographic order on priority tuples *)

Lemma tuple_le_refl (a : PriorityTuple) : tuple_le a a.
Proof. destruct a as [[a1 a2] a3]; simpl; lia. Qed.

Lemma tuple_le_trans (a b c : PriorityTuple) :
  tuple_le a b -> tuple_le b c -> tuple_le a c.
Proof.
  destruct a as [[a1 a2] a3], b as [[b1 b2] b3], c as [[c1 c2] c3]; simpl; lia.
Qed.

Lemma tuple_ltb_true (a b : PriorityTuple) :
  tuple_ltb a b = true -> tuple_le a b.
Proof.
  destruct a as [[a1 a2] a3], b as [[b1 b2] b3]; simpl.
  repeat case_match; lia.
Qed.

Lemma tuple_ltb_false (a b : PriorityTuple) :
  tuple_ltb a b = false -> tuple_le b a.
Proof.
  destruct a as [[a1 a2] a3], b as [[b1 b2] b3]; simpl.
  repeat case_match; lia.
Qed.

(** ** The heap dictionary *)

Section HeapdictFacts.
Context {K : Type} `{EqDecision K}.
Implicit Types (h : heapdict K) (k : K).

Lemma hd_min_None h : hd_min h = None -> h = [].
Proof.
  destruct h as [|e t]; [done|]. simpl.
  destruct (hd_min t); [case_match|]; done.
Qed.

Lemma hd_min_elem h e : hd_min h = Some e -> e ∈ h.
Proof.
  revert e. induction h as [|x t IH]; intros e; simpl; [done|].
  destruct (hd_min t) as [m|].
  - case_match; intros [= <-]; [right; by apply IH | left].
  - intros [= <-]. left.
Qed.

Lemma hd_min_least h e e' :
  hd_min h = Some e -> e' ∈ h -> tuple_le e.2 e'.2.
Proof.
  revert e. induction h as [|x t IH]; intros e; simpl; [done|].
  intros Hmin Hin. destruct (hd_min t) as [m|] eqn:Ht.
  - destruct (tuple_ltb m.2 x.2) eqn:Hlt; injection Hmin as <-.
    + apply elem_of_cons in Hin as [->|Hin].
      * by apply tuple_ltb_true.
      * by apply IH.
    + apply elem_of_cons in Hin as [->|Hin].
      * apply tuple_le_refl.
      * eapply tuple_le_trans; [by apply tuple_ltb_false|by apply IH].
  - injection Hmin as <-. apply hd_min_None in Ht as ->.
    apply elem_of_cons in Hin as [->|Hin]; [apply tuple_le_refl|].
    by apply elem_of_nil in Hin.
Qed.

Lemma hd_keys_remove h k :
  hd_keys (hd_remove k h) = filter (fun k' => k' <> k) (hd_keys h).
Proof.
  unfold hd_keys, hd_remove. induction h as [|[k' p] t IH]; [done|].
  rewrite fmap_cons, !filter_cons. cbn [fst].
  destruct (decide (k' <> k)); rewrite ?fmap_cons, IH; done.
Qed.

Lemma elem_of_hd_keys_remove h k k' :
  k' ∈ hd_keys (hd_remove k h) <-> k' ∈ hd_keys h /\ k' <> k.
Proof. rewrite hd_keys_remove, list_elem_of_filter. tauto. Qed.

Lemma elem_of_hd_remove h k e :
  e ∈ hd_remove k h <-> e ∈ h /\ e.1 <> k.
Proof. unfold hd_remove. rewrite list_elem_of_filter. tauto. Qed.

Lemma hd_keys_elem h e : e ∈ h -> e.1 ∈ hd_keys h.
Proof. intros. unfold hd_keys. by apply list_elem_of_fmap_2. Qed.

Lemma length_hd_remove_le h k : (length (hd_remove k h) <= length h)%nat.
Proof. unfold hd_remove. apply length_filter. Qed.

Lemma length_hd_remove_lt h k :
  k ∈ hd_keys h -> (length (hd_remove k h) < length h)%nat.
Proof.
  unfold hd_keys, hd_remove. induction h as [|[k' p] t IH]; simpl.
  - intros Hin. by apply elem_of_nil in Hin.
  - intros Hin. rewrite filter_cons. simpl.
    destruct (decide (k' <> k)) as [Hne|Heq].
    + apply elem_of_cons in Hin as [->|Hin]; [done|].
      simpl. specialize (IH Hin). lia.
    + pose proof (length_filter (fun e : K * PriorityTuple => e.1 <> k) t). lia.
Qed.

Lemma NoDup_hd_keys_remove h k :
  NoDup (hd_keys h) -> NoDup (hd_keys (hd_remove k h)).
Proof. rewrite hd_keys_remove. apply NoDup_filter. Qed.

Lemma hd_keys_setitem h k p :
  hd_keys (hd_setitem k p h) = filter (fun k' => k' <> k) (hd_keys h) ++ [k].
Proof.
  unfold hd_setitem. unfold hd_keys at 1. rewrite fmap_app. simpl.
  f_equal. apply hd_keys_remove.
Qed.

Lemma hd_pop_present h k :
  k ∈ hd_keys h -> exists p, hd_pop k h = Ok (p, hd_remove k h).
Proof.
  intros Hin. unfold hd_pop.
  destruct (list_find (fun e => e.1 = k) h) as [[i e]|] eqn:Hfind; [eauto|].
  apply list_find_None in Hfind.
  unfold hd_keys in Hin. apply list_elem_of_fmap in Hin as (e & -> & He).
  rewrite Forall_forall in Hfind. by destruct (Hfind e He).
Qed.

Lemma hd_pop_absent h k : k ∉ hd_keys h -> hd_pop k h = Raise KeyError.
Proof.
  intros Hnin. unfold hd_pop.
  destruct (list_find (fun e => e.1 = k) h) as [[i e]|] eqn:Hfind; [|done].
  apply list_find_Some in Hfind as (Hi & <- & _).
  destruct Hnin. apply hd_keys_elem. by eapply list_elem_of_lookup_2.
Qed.

Lemma hd_popitem_nonempty h :
  hd_empty h = false ->
  exists e, hd_min h = Some e /\ hd_popitem h = Ok (e, hd_remove e.1 h).
Proof.
  intros Hne. unfold hd_popitem.
  destruct (hd_min h) as [e|] eqn:Hmin; [eauto|].
  apply hd_min_None in Hmin as ->. done.
Qed.

Lemma hd_popitem_empty h : hd_empty h = true -> hd_popitem h = Raise IndexError.
Proof. destruct h; done. Qed.

End HeapdictFacts.

(** ** The collections *)

Section CollectionFacts.
Context {State : Type} `{Countable State} `{Hash State}.
Implicit Types (q : SearchNodesPriorityQueue State) (c : SearchNodesCollection State).
Implicit Types (n m node : SearchNode State) (s : State).

Lemma open_has_state_false q s :
  open_has_state q s = false <-> pq_state_to_search_node_mapping q !! s = None.
Proof.
  unfold open_has_state. rewrite bool_decide_eq_false.
  rewrite eq_None_not_Some. done.
Qed.

Lemma open_has_state_true q s :
  open_has_state q s = true <-> is_Some (pq_state_to_search_node_mapping q !! s).
Proof. unfold open_has_state. by rewrite bool_decide_eq_true. Qed.

Lemma push_node_inv q node q' :
  push_node q node = Ok q' ->
  pq_state_to_search_node_mapping q !! state node = None /\
  pq_nodes_queue q' =
    hd_setitem node (node_priority_tuple node) (pq_nodes_queue q) /\
  pq_state_to_search_node_mapping q' =
    <[state node := node]> (pq_state_to_search_node_mapping q).
Proof.
  unfold push_node. case_bool_decide as Hs; [done|].
  intros [= <-]. simpl. by rewrite eq_None_not_Some.
Qed.

Lemma push_node_absent q node :
  pq_state_to_search_node_mapping q !! state node = None ->
  exists q', push_node q node = Ok q'.
Proof.
  intros Hs. unfold push_node. rewrite bool_decide_eq_false_2; [eauto|].
  by rewrite Hs; intros [? ?].
Qed.

Lemma pop_next_node_inv q node q' :
  pop_next_node q = Ok (node, q') ->
  (exists p, hd_min (pq_nodes_queue q) = Some (node, p)) /\
  is_Some (pq_state_to_search_node_mapping q !! state node) /\
  pq_nodes_queue q' = hd_remove node (pq_nodes_queue q) /\
  pq_state_to_search_node_mapping q' =
    delete (state node) (pq_state_to_search_node_mapping q).
Proof.
  unfold pop_next_node, hd_popitem.
  destruct (hd_min (pq_nodes_queue q)) as [[n p]|] eqn:Hmin; [|done].
  simpl. destruct (pq_state_to_search_node_mapping q !! state n) eqn:Hs; [|done].
  intros [= <- <-]. simpl. rewrite Hs. eauto 6.
Qed.

Lemma pop_next_node_elem q node q' :
  pop_next_node q = Ok (node, q') -> node ∈ open_nodes q.
Proof.
  intros ([p Hmin] & _)%pop_next_node_inv.
  apply hd_min_elem, hd_keys_elem in Hmin. done.
Qed.

Lemma extract_node_inv q node q' :
  extract_node q node = Ok q' ->
  is_Some (pq_state_to_search_node_mapping q !! state node) /\
  node ∈ open_nodes q /\
  pq_nodes_queue q' = hd_remove node (pq_nodes_queue q) /\
  pq_state_to_search_node_mapping q' =
    delete (state node) (pq_state_to_search_node_mapping q).
Proof.
  unfold extract_node.
  destruct (pq_state_to_search_node_mapping q !! state node) eqn:Hs; [|done].
  destruct (decide (node ∈ hd_keys (pq_nodes_queue q))) as [Hin|Hnin].
  - destruct (hd_pop_present _ _ Hin) as [p ->].
    intros [= <-]. simpl. eauto.
  - by rewrite (hd_pop_absent _ _ Hnin).
Qed.

Lemma elem_of_open_nodes_push q node q' m :
  push_node q node = Ok q' ->
  m ∈ open_nodes q' <-> m = node \/ m ∈ open_nodes q.
Proof.
  intros (_ & Hh & _)%push_node_inv. unfold open_nodes. rewrite Hh.
  rewrite hd_keys_setitem, elem_of_app, list_elem_of_filter, list_elem_of_singleton.
  destruct (decide (m = node)); tauto.
Qed.

Lemma elem_of_open_nodes_pop q node q' m :
  pop_next_node q = Ok (node, q') ->
  m ∈ open_nodes q' <-> m ∈ open_nodes q /\ m <> node.
Proof.
  intros (_ & _ & Hh & _)%pop_next_node_inv. unfold open_nodes. rewrite Hh.
  apply elem_of_hd_keys_remove.
Qed.

Lemma elem_of_open_nodes_extract q node q' m :
  extract_node q node = Ok q' ->
  m ∈ open_nodes q' <-> m ∈ open_nodes q /\ m <> node.
Proof.
  intros (_ & _ & Hh & _)%extract_node_inv. unfold open_nodes. rewrite Hh.
  apply elem_of_hd_keys_remove.
Qed.

(** [open] shrinks by at least one node when a node is popped. *)
Lemma open_len_pop q node q' :
  pop_next_node q = Ok (node, q') -> open_len q' + 1 <= open_len q.
Proof.
  intros Hpop. pose proof (pop_next_node_elem _ _ _ Hpop) as Hin.
  apply pop_next_node_inv in Hpop as (_ & _ & Hh & _).
  unfold open_len, hd_len. rewrite Hh.
  pose proof (length_hd_remove_lt _ _ Hin). lia.
Qed.

Lemma add_node_inv c node c' :
  add_node c node = Ok c' ->
  col_state_to_search_node_mapping c !! state node = None /\
  col_state_to_search_node_mapping c' =
    <[state node := node]> (col_state_to_search_node_mapping c).
Proof.
  unfold add_node. case_bool_decide as Hs; [done|].
  intros [= <-]. simpl. by rewrite eq_None_not_Some.
Qed.

(** [close] grows by exactly one node when a node is added. *)
Lemma close_len_add c node c' :
  add_node c node = Ok c' -> close_len c' = close_len c + 1.
Proof.
  intros [Hs Hm]%add_node_inv. unfold close_len. rewrite Hm.
  rewrite map_size_insert_None by done. lia.
Qed.

Lemma has_node_add c node c' :
  add_node c node = Ok c' -> has_node c' node = true.
Proof.
  intros [_ Hm]%add_node_inv. unfold has_node. rewrite Hm, lookup_insert_eq.
  rewrite andb_true_iff, !bool_decide_eq_true. eauto.
Qed.

(** *** The empty queue and the three operations keep the queue in sync *)

Lemma queue_sync_init : queue_sync (SearchNodesPriorityQueue_init (State := State)).
Proof.
  split; [constructor|]. intros s n. simpl. rewrite lookup_empty.
  split; [done|]. intros [Hin _]. by apply elem_of_nil in Hin.
Qed.

Lemma queue_sync_push q node q' :
  queue_sync q -> push_node q node = Ok q' -> queue_sync q'.
Proof.
  intros [Hnd Hsync] Hpush.
  pose proof (push_node_inv _ _ _ Hpush) as (Hs & Hh & Hm).
  assert (node ∉ open_nodes q) as Hnin.
  { intros Hin. assert (pq_state_to_search_node_mapping q !! state node = Some node)
      as Hsome by (apply Hsync; done). congruence. }
  split.
  - unfold open_nodes. rewrite Hh, hd_keys_setitem.
    apply NoDup_app. split_and!.
    + by apply NoDup_filter.
    + intros x [_ Hx]%list_elem_of_filter ->%list_elem_of_singleton. done.
    + apply NoDup_singleton.
  - intros s n. rewrite (elem_of_open_nodes_push _ _ _ _ Hpush), Hm.
    destruct (decide (s = state node)) as [->|Hne].
    + rewrite lookup_insert_eq. split.
      * intros [= <-]. eauto.
      * intros [[->|Hin] Hst]; [done|].
        assert (pq_state_to_search_node_mapping q !! state node = Some n)
          as Hsome by (apply Hsync; done). congruence.
    + rewrite lookup_insert_ne by done. rewrite Hsync. split.
      * intros [? ?]. eauto.
      * intros [[->|Hin] Hst]; [congruence|done].
Qed.

Lemma queue_sync_remove q node heap mapping :
  queue_sync q -> node ∈ open_nodes q ->
  heap = hd_remove node (pq_nodes_queue q) ->
  mapping = delete (state node) (pq_state_to_search_node_mapping q) ->
  queue_sync {| pq_nodes_queue := heap;
                pq_state_to_search_node_mapping := mapping |}.
Proof.
  intros [Hnd Hsync] Hin -> ->. split.
  - unfold open_nodes. simpl. by apply NoDup_hd_keys_remove.
  - intros s n. unfold open_nodes. simpl. rewrite elem_of_hd_keys_remove.
    destruct (decide (s = state node)) as [->|Hne].
    + rewrite lookup_delete_eq. split; [done|].
      intros [[Hn Hneq] Hst]. destruct Hneq.
      assert (pq_state_to_search_node_mapping q !! state node = Some n)
        as H1 by (apply Hsync; done).
      assert (pq_state_to_search_node_mapping q !! state node = Some node)
        as H2 by (apply Hsync; done).
      congruence.
    + rewrite lookup_delete_ne by done. rewrite Hsync. split.
      * intros [? ?]. split_and!; [done| |done]. congruence.
      * intros [[? ?] ?]. done.
Qed.

Lemma queue_sync_pop q node q' :
  queue_sync q -> pop_next_node q = Ok (node, q') -> queue_sync q'.
Proof.
  intros Hsync Hpop. pose proof (pop_next_node_elem _ _ _ Hpop) as Hin.
  apply pop_next_node_inv in Hpop as (_ & _ & Hh & Hm).
  destruct q' as [h' m']. simpl in *. by eapply queue_sync_remove.
Qed.

Lemma queue_sync_extract q node q' :
  queue_sync q -> extract_node q node = Ok q' -> queue_sync q'.
Proof.
  intros Hsync (_ & Hin & Hh & Hm)%extract_node_inv.
  destruct q' as [h' m']. simpl in *. by eapply queue_sync_remove.
Qed.

(** Under its precondition an operation on a queue in sync succeeds. *)
Lemma run_op_succeeds q op :
  queue_sync q -> op_precondition q op -> exists q', run_op q op = Ok q'.
Proof.
  intros [Hnd Hsync] Hpre. destruct op as [node| |node]; simpl in *.
  - apply open_has_state_false in Hpre. by apply push_node_absent.
  - unfold is_empty in Hpre.
    destruct (hd_popitem_nonempty _ Hpre) as ([n p] & Hmin & Hpop).
    unfold pop_next_node. rewrite Hpop. simpl.
    assert (pq_state_to_search_node_mapping q !! state n = Some n) as ->.
    { apply Hsync. split; [|done]. by apply hd_min_elem, hd_keys_elem in Hmin. }
    simpl. eauto.
  - unfold open_get_node_by_state in Hpre. unfold extract_node. rewrite Hpre.
    assert (node ∈ open_nodes q) as Hin by (by apply Hsync in Hpre as [? _]).
    destruct (hd_pop_present _ _ Hin) as [p ->]. eauto.
Qed.

Lemma run_op_sync q op q' :
  queue_sync q -> run_op q op = Ok q' -> queue_sync q'.
Proof.
  intros Hsync. destruct op as [node| |node]; simpl.
  - by apply queue_sync_push.
  - destruct (pop_next_node q) as [[n q1]| |] eqn:Hpop; simpl; [|done..].
    intros [= <-]. by eapply queue_sync_pop.
  - by apply queue_sync_extract.
Qed.

Lemma run_ops_sync ops : forall q,
  queue_sync q -> preconditions_hold q ops ->
  exists q', run_ops q ops = Ok q' /\ queue_sync q'.
Proof.
  induction ops as [|op rest IH]; intros q Hsync Hpre; simpl in *; [eauto|].
  destruct Hpre as [Hop Hrest].
  destruct (run_op_succeeds _ _ Hsync Hop) as [q1 Hrun].
  rewrite Hrun in Hrest |- *. simpl.
  apply IH; [by eapply run_op_sync|done].
Qed.

(** *** The stored priorities are the tuples of the nodes *)

Lemma queue_priorities_init :
  queue_priorities (SearchNodesPriorityQueue_init (State := State)).
Proof. intros n p Hin. by apply elem_of_nil in Hin. Qed.

Lemma queue_priorities_push q node q' :
  queue_priorities q -> push_node q node = Ok q' -> queue_priorities q'.
Proof.
  intros Hp (_ & Hh & _)%push_node_inv n p. rewrite Hh. unfold hd_setitem.
  rewrite elem_of_app, elem_of_hd_remove, list_elem_of_singleton.
  intros [[Hin _]|[= -> ->]]; [by apply Hp|done].
Qed.

Lemma queue_priorities_pop q node q' :
  queue_priorities q -> pop_next_node q = Ok (node, q') -> queue_priorities q'.
Proof.
  intros Hp (_ & _ & Hh & _)%pop_next_node_inv n p. rewrite Hh.
  rewrite elem_of_hd_remove. intros [Hin _]. by apply Hp.
Qed.

Lemma queue_priorities_extract q node q' :
  queue_priorities q -> extract_node q node = Ok q' -> queue_priorities q'.
Proof.
  intros Hp (_ & _ & Hh & _)%extract_node_inv n p. rewrite Hh.
  rewrite elem_of_hd_remove. intros [Hin _]. by apply Hp.
Qed.

Lemma run_ops_priorities ops : forall q q',
  queue_priorities q -> run_ops q ops = Ok q' -> queue_priorities q'.
Proof.
  induction ops as [|op rest IH]; intros q q' Hp; simpl.
  - by intros [= <-].
  - destruct (run_op q op) as [q1| |] eqn:Hrun; simpl; [|done..].
    apply IH. destruct op as [node| |node]; simpl in Hrun.
    + by eapply queue_priorities_push.
    + destruct (pop_next_node q) as [[n q2]| |] eqn:Hpop; simpl in Hrun; [|done..].
      injection Hrun as <-. by eapply queue_priorities_pop.
    + by eapply queue_priorities_extract.
Qed.

(** A queue in sync holds as many nodes in its heap as states in its
    mapping. *)
Lemma queue_sync_len q :
  queue_sync q ->
  open_len q = Z.of_nat (size (pq_state_to_search_node_mapping q)).
Proof.
  intros [Hnd Hsync]. unfold open_len, hd_len. f_equal.
  rewrite <- (length_fmap fst). fold (hd_keys (pq_nodes_queue q)).
  fold (open_nodes q).
  rewrite <- (length_fmap (fun n => (state n, n)) (open_nodes q)).
  rewrite <- length_map_to_list.
  apply Permutation_length, NoDup_Permutation.
  - apply NoDup_fmap_2; [|done]. by intros n1 n2 [= _ ->].
  - apply NoDup_map_to_list.
  - intros [s n]. rewrite elem_of_map_to_list, Hsync, list_elem_of_fmap.
    split.
    + intros (k & [= -> ->] & Hk). done.
    + intros [Hn <-]. eauto.
Qed.

(** C2: popping a non-empty queue removes and returns a node whose tuple
    [(expanding_priority, -g_cost, hash(state))] is lexicographically least
    among the tuples of the nodes in the queue.  The queue is one kept by its
    own operations: in sync, each node stored under its own tuple. *)
Theorem pop_next_node_least q :
  queue_sync q -> queue_priorities q -> is_empty q = false ->
  exists node q',
    pop_next_node q = Ok (node, q') /\
    node ∈ open_nodes q /\
    (forall m, m ∈ open_nodes q ->
               tuple_le (node_priority_tuple node) (node_priority_tuple m)) /\
    (forall m, m ∈ open_nodes q' <-> m ∈ open_nodes q /\ m <> node) /\
    open_has_state q' (state node) = false.
Proof.
  intros Hsync Hprio Hne.
  destruct (run_op_succeeds q OpPop Hsync Hne) as [q1 Hrun]. simpl in Hrun.
  destruct (pop_next_node q) as [[node q']| |] eqn:Hpop; simpl in Hrun; [|done..].
  exists node, q'. split; [done|].
  pose proof (pop_next_node_inv _ _ _ Hpop) as ([p Hmin] & _ & _ & Hm).
  split_and!.
  - by eapply pop_next_node_elem.
  - intros m Hin. unfold open_nodes, hd_keys in Hin.
    apply list_elem_of_fmap in Hin as ([m' p'] & -> & Hin). cbn [fst].
    pose proof (hd_min_least _ _ _ Hmin Hin) as Hle. cbn [snd] in Hle.
    rewrite <- (Hprio _ _ Hin).
    rewrite <- (Hprio _ _ (hd_min_elem _ _ Hmin)). done.
  - intros m. by eapply elem_of_open_nodes_pop.
  - apply open_has_state_false. rewrite Hm. apply lookup_delete_eq.
Qed.

(** C5: starting from the empty queue, every sequence of pushes, pops and
    extractions in which each operation meets its precondition runs without
    error and leaves the state-to-node mapping and the priority structure
    in sync: a state maps to a node iff that very node, with that state, is
    held by the heap, no node is held twice, and both have the same size. *)
Theorem queue_operations_keep_sync ops :
  preconditions_hold SearchNodesPriorityQueue_init ops ->
  exists q,
    run_ops SearchNodesPriorityQueue_init ops = Ok q /\
    queue_sync q /\
    open_len q = Z.of_nat (size (pq_state_to_search_node_mapping q)).
Proof.
  intros Hpre.
  destruct (run_ops_sync ops _ queue_sync_init Hpre) as (q & Hrun & Hsync).
  exists q. split_and!; [done..|]. by apply queue_sync_len.
Qed.

(** C7: each contract violation raises at once: pushing a state [open]
    already holds, adding a state [close] already holds and removing a node
    whose state [close] does not hold fail their assertion; extracting a
    node whose state [open] does not hold raises [KeyError] at the deletion
    from the mapping; popping an empty queue raises in the heap. *)
Theorem contract_violations_raise :
  (forall q node, open_has_state q (state node) = true ->
                  push_node q node = Raise AssertionError) /\
  (forall c node, close_has_state c (state node) = true ->
                  add_node c node = Raise AssertionError) /\
  (forall c node, close_has_state c (state node) = false ->
                  remove_node c node = Raise AssertionError) /\
  (forall q node, open_has_state q (state node) = false ->
                  extract_node q node = Raise KeyError) /\
  (forall q, is_empty q = true -> pop_next_node q = Raise IndexError).
Proof.
  split_and!.
  - intros q node Hs. unfold push_node. unfold open_has_state in Hs. by rewrite Hs.
  - intros c node Hs. unfold add_node. unfold close_has_state in Hs. by rewrite Hs.
  - intros c node Hs. unfold remove_node. unfold close_has_state in Hs. by rewrite Hs.
  - intros q node Hs%open_has_state_false. unfold extract_node. by rewrite Hs.
  - intros q He. unfold pop_next_node. unfold is_empty in He.
    by rewrite (hd_popitem_empty _ He).
Qed.

End CollectionFacts.

(** ** The engine *)

Section EngineFacts.
Context {State : Type} `{Countable State} `{Hash State} `{!Strategy State}.
Implicit Types (b : BestFirstSearch State) (r : Run State).
Implicit Types (q : SearchNodesPriorityQueue State) (c : SearchNodesCollection State).
Implicit Types (n m node : SearchNode State) (problem : GraphProblem State).
Implicit Types (nr max_stored : Z) (locals : Locals State).

(** *** What a step of the engine does *)

Lemma get_current_nr_stored_states_inv b (count : Z) :
  _get_current_nr_stored_states b = Ok count -> count = nr_stored b.
Proof.
  unfold _get_current_nr_stored_states, nr_stored.
  destruct (open b); [|done]. by intros [= <-].
Qed.

Lemma open_len_nonneg q : 0 <= open_len q.
Proof. unfold open_len, hd_len. lia. Qed.

Lemma close_len_nonneg c : 0 <= close_len c.
Proof. unfold close_len. lia. Qed.

Lemma nr_stored_nonneg b : 0 <= nr_stored b.
Proof.
  unfold nr_stored.
  destruct (open b) as [q|], (close b) as [c|];
    try pose proof (open_len_nonneg q); try pose proof (close_len_nonneg c); lia.
Qed.

Lemma extract_None_inv problem b b' :
  _extract_next_search_node_to_expand problem b = Ok (None, b') ->
  b' = b /\ exists q, open b = Some q /\ is_empty q = true.
Proof.
  unfold _extract_next_search_node_to_expand.
  destruct (open b) as [q|] eqn:Hopen; [|done].
  destruct (is_empty q) eqn:Hempty.
  - intros [= <-]. eauto.
  - destruct (pop_next_node q) as [[node q']| |]; simpl; [|done..].
    destruct (use_close b); [|done].
    destruct (close b) as [c|]; [|done].
    destruct (add_node c node); done.
Qed.

Lemma extract_Some_inv problem b node b' :
  _extract_next_search_node_to_expand problem b = Ok (Some node, b') ->
  exists q q',
    open b = Some q /\ is_empty q = false /\
    pop_next_node q = Ok (node, q') /\
    ((use_close b = true /\
      exists c c', close b = Some c /\ add_node c node = Ok c' /\
                   b' = set_close (set_open b (Some q')) (Some c')) \/
     (use_close b = false /\ b' = set_open b (Some q'))).
Proof.
  unfold _extract_next_search_node_to_expand.
  destruct (open b) as [q|] eqn:Hopen; [|done].
  destruct (is_empty q) eqn:Hempty; [done|].
  destruct (pop_next_node q) as [[n q']| |] eqn:Hpop; simpl; [|done..].
  destruct (use_close b) eqn:Huse.
  - destruct (close b) as [c|] eqn:Hclose; [|done].
    destruct (add_node c n) as [c'| |] eqn:Hadd; simpl; [|done..].
    intros [= <- <-]. exists q, q'. split_and!; [done..|].
    left. split; [done|]. exists c, c'. done.
  - intros [= <- <-]. exists q, q'. split_and!; [done..|]. by right.
Qed.

(** Extracting a node never makes the solver store more nodes. *)
Lemma nr_stored_extract problem b node b' :
  _extract_next_search_node_to_expand problem b = Ok (Some node, b') ->
  nr_stored b' <= nr_stored b.
Proof.
  intros (q & q' & Hopen & _ & Hpop & Hcase)%extract_Some_inv.
  pose proof (open_len_pop _ _ _ Hpop) as Hlen.
  destruct Hcase as [(_ & c & c' & Hclose & Hadd & ->)|(_ & ->)];
    unfold nr_stored; simpl; rewrite Hopen.
  - rewrite Hclose. rewrite (close_len_add _ _ _ Hadd). lia.
  - lia.
Qed.

(** The extracted node was in [open], and no node is stored that was not
    stored before. *)
Lemma stored_extract problem b node b' :
  _extract_next_search_node_to_expand problem b = Ok (Some node, b') ->
  stored b node /\ forall m, stored b' m -> stored b m.
Proof.
  intros (q & q' & Hopen & _ & Hpop & Hcase)%extract_Some_inv.
  assert (stored b node) as Hnode.
  { left. exists q. split; [done|]. by eapply pop_next_node_elem. }
  split; [done|]. intros m.
  assert (m ∈ open_nodes q' -> stored b m) as Hq'.
  { intros [Hin _]%(elem_of_open_nodes_pop _ _ _ _ Hpop). left. eauto. }
  destruct Hcase as [(_ & c & c' & Hclose & Hadd & ->)|(_ & ->)].
  - intros [(q1 & [= <-] & Hin)|(c1 & s & [= <-] & Hs)]; [by apply Hq'|].
    apply add_node_inv in Hadd as [_ Hm]. rewrite Hm in Hs.
    destruct (decide (state node = s)) as [<-|Hne].
    + rewrite lookup_insert_eq in Hs. by injection Hs as <-.
    + rewrite lookup_insert_ne in Hs by done. right. eauto.
  - intros [(q1 & [= <-] & Hin)|(c1 & s & Hclose & Hs)]; [by apply Hq'|].
    right. eauto.
Qed.

Lemma handle_successor_inv problem node operator_result max_stored r max_stored' r' :
  handle_successor problem node operator_result max_stored r
    = Ok (max_stored', r') ->
  let successor_node := successor_node_of r node operator_result in
  let offered := criterion_accepts (self r) successor_node in
  (if offered
   then _open_successor_node problem successor_node (self r) = Ok (self r')
   else self r' = self r) /\
  _get_current_nr_stored_states (self r') = Ok (nr_stored (self r')) /\
  max_stored' = Z.max max_stored (nr_stored (self r')) /\
  next_node_id r' = S (next_node_id r) /\
  history r' =
    history r ++ [EvSuccessor successor_node offered (nr_stored (self r'))].
Proof.
  intros Hrun. cbv zeta. unfold handle_successor in Hrun. cbv zeta in Hrun.
  fold (successor_node_of r node operator_result) in Hrun.
  set (successor_node := successor_node_of r node operator_result) in *.
  set (offered := criterion_accepts (self r) successor_node) in *.
  assert (exists b', (if offered
                      then _open_successor_node problem successor_node (self r)
                      else Ok (self r)) = Ok b') as [b' Hb'].
  { destruct (if offered then _ else _); [eauto|done..]. }
  rewrite Hb' in Hrun. simpl in Hrun.
  destruct (_get_current_nr_stored_states b') as [cnt| |] eqn:Hcnt;
    simpl in Hrun; [|done..].
  injection Hrun as <- <-. simpl.
  pose proof (get_current_nr_stored_states_inv _ _ Hcnt) as ->.
  split_and!; [|done..].
  destruct offered; [done|]. by injection Hb' as <-.
Qed.

(** *** A proof rule for the loop

    [Inv] holds each time the loop is entered, [Body] while the successors
    of a node are handled, and [Post] when the loop is left. *)
Section LoopRule.
Variable problem : GraphProblem State.
Variable Inv : Z -> Z -> Run State -> Prop.
Variable Body : SearchNode State -> Z -> Z -> Run State -> Prop.
Variable Post : Locals State -> Run State -> Prop.

Hypothesis rule_exhausted : forall nr max_stored r b,
  Inv nr max_stored r ->
  _extract_next_search_node_to_expand problem (self r) = Ok (None, b) ->
  Post (mkLocals None nr max_stored false)
       {| self := b; next_node_id := next_node_id r; history := history r |}.

Hypothesis rule_goal : forall nr max_stored r node b,
  Inv nr max_stored r ->
  _extract_next_search_node_to_expand problem (self r) = Ok (Some node, b) ->
  is_goal problem (state node) = true ->
  Post (mkLocals (Some node) nr max_stored false) (after_extraction r node b).

Hypothesis rule_budget : forall nr max_stored r node b,
  Inv nr max_stored r ->
  _extract_next_search_node_to_expand problem (self r) = Ok (Some node, b) ->
  is_goal problem (state node) = false ->
  budget_reached b nr = true ->
  Post (mkLocals None nr max_stored true) (after_extraction r node b).

Hypothesis rule_expand : forall nr max_stored r node b,
  Inv nr max_stored r ->
  _extract_next_search_node_to_expand problem (self r) = Ok (Some node, b) ->
  is_goal problem (state node) = false ->
  budget_reached b nr = false ->
  Body node (nr + 1) max_stored (after_extraction r node b).

Hypothesis rule_successor : forall node nr max_stored r operator_result max_stored' r',
  Body node nr max_stored r ->
  handle_successor problem node operator_result max_stored r
    = Ok (max_stored', r') ->
  Body node nr max_stored' r'.

Hypothesis rule_next : forall node nr max_stored r,
  Body node nr max_stored r -> Inv nr max_stored r.

Lemma for_each_successor_rule node nr results : forall max_stored r max_stored' r',
  Body node nr max_stored r ->
  for_each_successor problem node results max_stored r = Ok (max_stored', r') ->
  Body node nr max_stored' r'.
Proof.
  induction results as [|operator_result rest IH]; intros ms r ms' r' HB; simpl.
  - by intros [= <- <-].
  - destruct (handle_successor problem node operator_result ms r)
      as [[ms1 r1]| |] eqn:Hstep; simpl; [|done..].
    apply IH. by eapply rule_successor.
Qed.

Lemma solve_loop_rule fuel : forall nr max_stored r locals r',
  Inv nr max_stored r ->
  solve_loop fuel problem nr max_stored r = Ok (locals, r') ->
  Post locals r'.
Proof.
  induction fuel as [|fuel IH]; intros nr ms r locals r' HI; simpl; [done|].
  destruct (_extract_next_search_node_to_expand problem (self r))
    as [[[node|] b]| |] eqn:Hext; simpl; [| |done..].
  - fold (after_extraction r node b).
    destruct (is_goal problem (state node)) eqn:Hgoal.
    { intros [= <- <-]. by eapply rule_goal. }
    destruct (budget_reached b nr) eqn:Hbudget.
    { intros [= <- <-]. by eapply rule_budget. }
    destruct (for_each_successor problem node
                (expand_state_with_costs problem (state node)) ms
                (after_extraction r node b)) as [[ms1 r1]| |] eqn:Hfor;
      simpl; [|done..].
    apply IH. eapply rule_next, for_each_successor_rule; [|done].
    by eapply rule_expand.
  - intros [= <- <-]. by eapply rule_exhausted.
Qed.

End LoopRule.

(** *** [solve_problem] up to its loop *)

Lemma solve_problem_eq fuel b problem :
  solve_problem fuel b problem =
  b1 ← _init_solver problem (reset_solver b);
  match open b1 with
  | None => Raise AttributeError
  | Some q =>
      q' ← push_node q (initial_search_node_of problem b1);
      '(locals, r) ←
        solve_loop fuel problem 0 (Z.max 0 (nr_stored (set_open b1 (Some q'))))
          (seeded_run (set_open b1 (Some q'))
                      (initial_search_node_of problem b1));
      Ok (result_of_locals locals, r)
  end.
Proof.
  unfold solve_problem, reset_solver. simpl.
  destruct (_init_solver _ _) as [b1| |]; simpl; [|done..].
  destruct (open b1) as [q|]; [|done].
  destruct (push_node _ _) as [q'| |]; simpl; [|done..].
  reflexivity.
Qed.

Lemma solve_problem_inv fuel b problem res r :
  solve_problem fuel b problem = Ok (res, r) ->
  exists b1 q q' locals,
    _init_solver problem (reset_solver b) = Ok b1 /\
    open b1 = Some q /\
    push_node q (initial_search_node_of problem b1) = Ok q' /\
    solve_loop fuel problem 0 (Z.max 0 (nr_stored (set_open b1 (Some q'))))
      (seeded_run (set_open b1 (Some q')) (initial_search_node_of problem b1))
      = Ok (locals, r) /\
    res = result_of_locals locals.
Proof.
  rewrite solve_problem_eq.
  destruct (_init_solver problem (reset_solver b)) as [b1| |] eqn:Hinit;
    simpl; [|done..].
  destruct (open b1) as [q|] eqn:Hopen; [|done].
  destruct (push_node q (initial_search_node_of problem b1)) as [q'| |] eqn:Hpush;
    simpl; [|done..].
  destruct (solve_loop _ _ _ _ _) as [[locals r1]| |] eqn:Hloop; simpl; [|done..].
  intros [= <- <-]. exists b1, q, q', locals. done.
Qed.

(** *** Attributes the engine does not assign *)

Lemma extract_preserves {A : Type} (attribute : BestFirstSearch State -> A)
    problem b o b' :
  (forall b x, attribute (set_open b x) = attribute b) ->
  (forall b x, attribute (set_close b x) = attribute b) ->
  _extract_next_search_node_to_expand problem b = Ok (o, b') ->
  attribute b' = attribute b.
Proof.
  intros Hopen Hclose Hext. destruct o as [node|].
  - apply extract_Some_inv in Hext as (q & q' & _ & _ & _ & Hcase).
    destruct Hcase as [(_ & c & c' & _ & _ & ->)|(_ & ->)].
    + by rewrite Hclose, Hopen.
    + by rewrite Hopen.
  - by apply extract_None_inv in Hext as [-> _].
Qed.

Lemma handle_successor_preserves {A : Type} (attribute : BestFirstSearch State -> A)
    problem node operator_result max_stored r max_stored' r' :
  strategy_preserves attribute ->
  handle_successor problem node operator_result max_stored r
    = Ok (max_stored', r') ->
  attribute (self r') = attribute (self r).
Proof.
  intros [_ Hhook] (Hstep & _)%handle_successor_inv.
  destruct (criterion_accepts _ _); [by eapply Hhook|by rewrite Hstep].
Qed.

Lemma solve_loop_preserves {A : Type} (attribute : BestFirstSearch State -> A)
    fuel problem nr max_stored r locals r' :
  (forall b x, attribute (set_open b x) = attribute b) ->
  (forall b x, attribute (set_close b x) = attribute b) ->
  strategy_preserves attribute ->
  solve_loop fuel problem nr max_stored r = Ok (locals, r') ->
  attribute (self r') = attribute (self r).
Proof.
  intros Hopen Hclose Hstrategy.
  apply (solve_loop_rule problem
           (fun _ _ r0 => attribute (self r0) = attribute (self r))
           (fun _ _ _ r0 => attribute (self r0) = attribute (self r))
           (fun _ r0 => attribute (self r0) = attribute (self r)));
    try done.
  - intros ? ? r0 b0 <- Hext. simpl. by eapply extract_preserves.
  - intros ? ? r0 ? b0 <- Hext _. simpl. by eapply extract_preserves.
  - intros ? ? r0 ? b0 <- Hext _ _. simpl. by eapply extract_preserves.
  - intros ? ? r0 ? b0 <- Hext _ _. simpl. by eapply extract_preserves.
  - intros ? ? ? r0 ? ? r1 <- Hstep. by eapply handle_successor_preserves.
Qed.

Lemma solve_problem_preserves {A : Type} (attribute : BestFirstSearch State -> A)
    fuel b problem res r :
  (forall b x, attribute (set_open b x) = attribute b) ->
  (forall b x, attribute (set_close b x) = attribute b) ->
  strategy_preserves attribute ->
  solve_problem fuel b problem = Ok (res, r) ->
  attribute (self r) = attribute b.
Proof.
  intros Hopen Hclose Hstrategy
    (b1 & q & q' & locals & Hinit & _ & _ & Hloop & _)%solve_problem_inv.
  rewrite (solve_loop_preserves attribute _ _ _ _ _ _ _
             Hopen Hclose Hstrategy Hloop).
  simpl. rewrite Hopen. destruct Hstrategy as [Hi _].
  rewrite (Hi _ _ _ Hinit). unfold reset_solver. by rewrite Hclose, Hopen.
Qed.

(** *** The high-water mark of stored nodes *)

Lemma is_peak_snoc_le (l : list (Event State)) peak e :
  is_peak l peak -> event_stored e <= peak -> is_peak (l ++ [e]) peak.
Proof.
  intros [Hle (e0 & Hin & Heq)] He. split.
  - intros e' [?| ->%list_elem_of_singleton]%elem_of_app; [by apply Hle|done].
  - exists e0. split; [|done]. apply elem_of_app. by left.
Qed.

Lemma is_peak_snoc_max (l : list (Event State)) peak e :
  is_peak l peak -> is_peak (l ++ [e]) (Z.max peak (event_stored e)).
Proof.
  intros [Hle (e0 & Hin & Heq)]. split.
  - intros e' [Hin'| ->%list_elem_of_singleton]%elem_of_app; [|lia].
    specialize (Hle _ Hin'). lia.
  - destruct (Z.max_spec peak (event_stored e)) as [[_ ->]|[_ ->]].
    + exists e. split; [|done]. apply elem_of_app. right. by apply list_elem_of_singleton.
    + exists e0. split; [|done]. apply elem_of_app. by left.
Qed.

Lemma open_len_push q node q' : push_node q node = Ok q' -> 1 <= open_len q'.
Proof.
  intros (_ & Hh & _)%push_node_inv. unfold open_len, hd_len. rewrite Hh.
  unfold hd_setitem. rewrite length_app. simpl. lia.
Qed.

Lemma solve_loop_peak fuel problem nr max_stored r locals r' :
  nr_stored (self r) <= max_stored ->
  is_peak (history r) max_stored ->
  solve_loop fuel problem nr max_stored r = Ok (locals, r') ->
  max_stored <= loc_max_nr_stored_states locals /\
  nr_stored (self r') <= loc_max_nr_stored_states locals /\
  is_peak (history r') (loc_max_nr_stored_states locals).
Proof.
  intros Hle Hpeak.
  apply (solve_loop_rule problem
    (fun _ ms r0 => max_stored <= ms /\ nr_stored (self r0) <= ms /\
                    is_peak (history r0) ms)
    (fun _ _ ms r0 => max_stored <= ms /\ nr_stored (self r0) <= ms /\
                      is_peak (history r0) ms)
    (fun locals r0 =>
       max_stored <= loc_max_nr_stored_states locals /\
       nr_stored (self r0) <= loc_max_nr_stored_states locals /\
       is_peak (history r0) (loc_max_nr_stored_states locals)));
    try done.
  - intros ? ms r0 b0 (? & ? & ?) [-> _]%extract_None_inv. done.
  - intros ? ms r0 node b0 (? & ? & ?) Hext%nr_stored_extract _. simpl.
    split_and!; [done|lia|]. apply is_peak_snoc_le; [done|simpl; lia].
  - intros ? ms r0 node b0 (? & ? & ?) Hext%nr_stored_extract _ _. simpl.
    split_and!; [done|lia|]. apply is_peak_snoc_le; [done|simpl; lia].
  - intros ? ms r0 node b0 (? & ? & ?) Hext%nr_stored_extract _ _. simpl.
    split_and!; [done|lia|]. apply is_peak_snoc_le; [done|simpl; lia].
  - intros node ? ms r0 operator_result ms' r1 (? & ? & Hp)
      (_ & _ & -> & _ & Hhist)%handle_successor_inv.
    split_and!; [lia..|]. rewrite Hhist.
    by apply (is_peak_snoc_max _ _ (EvSuccessor _ _ _)).
Qed.

Lemma solve_problem_peak fuel b problem res r :
  solve_problem fuel b problem = Ok (res, r) ->
  1 <= result_max_nr_stored_states res /\
  nr_stored (self r) <= result_max_nr_stored_states res /\
  is_peak (history r) (result_max_nr_stored_states res).
Proof.
  intros (b1 & q & q' & locals & _ & _ & Hpush & Hloop & ->)%solve_problem_inv.
  simpl.
  assert (1 <= nr_stored (set_open b1 (Some q'))) as Hone.
  { unfold nr_stored. simpl. pose proof (open_len_push _ _ _ Hpush).
    destruct (close b1) as [c|]; [pose proof (close_len_nonneg c)|]; lia. }
  rewrite Z.max_r in Hloop by lia.
  apply solve_loop_peak in Hloop as (? & ? & ?); [split_and!; [lia|done..]|done|].
  split.
  - intros e ->%list_elem_of_singleton. done.
  - eexists. split; [by apply list_elem_of_singleton|done].
Qed.


(** C10: [solve_problem] does not assign the attribute
    [max_nr_stored_states] of the solver object: when the hooks of the
    strategy leave it alone, it is 0 after the run as the constructor set
    it, while the statistic of the run, which is at least 1, is only in the
    result. *)
Theorem solve_problem_keeps_attribute fuel b problem res r :
  strategy_preserves max_nr_stored_states ->
  max_nr_stored_states b = 0 ->
  solve_problem fuel b problem = Ok (res, r) ->
  max_nr_stored_states (self r) = 0 /\
  1 <= result_max_nr_stored_states res.
Proof.
  intros Hstrategy Hzero Hrun. split.
  - rewrite <- Hzero.
    by apply (solve_problem_preserves max_nr_stored_states fuel b problem res r).
  - by apply solve_problem_peak in Hrun as [? _].
Qed.

(** *** How the loop is left *)

Lemma extract_just_extracted problem b node b' :
  _extract_next_search_node_to_expand problem b = Ok (Some node, b') ->
  just_extracted b' node.
Proof.
  intros (q & q' & Hopen & _ & Hpop & Hcase)%extract_Some_inv.
  assert ((node ∉ open_nodes q') /\ open_has_state q' (state node) = false)
    as [Hnin Hstate].
  { split.
    - rewrite (elem_of_open_nodes_pop _ _ _ _ Hpop). tauto.
    - apply pop_next_node_inv in Hpop as (_ & _ & _ & Hm).
      apply open_has_state_false. rewrite Hm. apply lookup_delete_eq. }
  destruct Hcase as [(Huse & c & c' & Hclose & Hadd & ->)|(Huse & ->)].
  - split; [exists q'; done|]. intros _. exists c'. split; [done|].
    by eapply has_node_add.
  - split; [exists q'; done|]. simpl. congruence.
Qed.

Lemma extract_extracted_last problem r node b :
  _extract_next_search_node_to_expand problem (self r) = Ok (Some node, b) ->
  extracted_last (after_extraction r node b) node.
Proof.
  intros Hext. split; [apply last_snoc|]. by eapply extract_just_extracted.
Qed.

Lemma solve_loop_terminal fuel problem nr max_stored r locals r' :
  solve_loop fuel problem nr max_stored r = Ok (locals, r') ->
  (forall n, final_search_node locals = Some n ->
             exceeded_max_nr_expanded_states locals = false /\
             is_goal problem (state n) = true /\ extracted_last r' n) /\
  (exceeded_max_nr_expanded_states locals = true ->
   final_search_node locals = None /\
   budget_reached (self r') (loc_nr_expanded_states locals) = true /\
   exists n, is_goal problem (state n) = false /\ extracted_last r' n) /\
  (final_search_node locals = None ->
   exceeded_max_nr_expanded_states locals = false ->
   exists q, open (self r') = Some q /\ is_empty q = true).
Proof.
  apply (solve_loop_rule problem (fun _ _ _ => True) (fun _ _ _ _ => True)
    (fun locals r0 =>
       (forall n, final_search_node locals = Some n ->
                  exceeded_max_nr_expanded_states locals = false /\
                  is_goal problem (state n) = true /\ extracted_last r0 n) /\
       (exceeded_max_nr_expanded_states locals = true ->
        final_search_node locals = None /\
        budget_reached (self r0) (loc_nr_expanded_states locals) = true /\
        exists n, is_goal problem (state n) = false /\ extracted_last r0 n) /\
       (final_search_node locals = None ->
        exceeded_max_nr_expanded_states locals = false ->
        exists q, open (self r0) = Some q /\ is_empty q = true)));
    try done.
  - intros ? ? r0 b0 _ [-> Hq]%extract_None_inv. simpl. split_and!; done.
  - intros ? ? r0 node b0 _ Hext Hgoal. simpl. split_and!; [|done..].
    intros n [= <-]. split_and!; [done..|]. by eapply extract_extracted_last.
  - intros ? ? r0 node b0 _ Hext Hgoal Hbudget. simpl. split_and!; [done| |done].
    intros _. split_and!; [done..|]. exists node. split; [done|].
    by eapply extract_extracted_last.
Qed.

Lemma nr_extractions_snoc_extracted (l : list (Event State)) node stored_now :
  nr_extractions (l ++ [EvExtracted node stored_now]) = nr_extractions l + 1.
Proof.
  unfold nr_extractions. rewrite filter_app, length_app. simpl. lia.
Qed.

Lemma nr_extractions_snoc_successor (l : list (Event State)) node offered stored_now :
  nr_extractions (l ++ [EvSuccessor node offered stored_now]) = nr_extractions l.
Proof.
  unfold nr_extractions. rewrite filter_app, length_app. simpl. lia.
Qed.

(** The number of expanded states is the number of extractions, less the
    last one when the loop is left on a goal or on the budget. *)
Lemma solve_loop_count fuel problem nr max_stored r locals r' :
  nr = nr_extractions (history r) ->
  solve_loop fuel problem nr max_stored r = Ok (locals, r') ->
  loc_nr_expanded_states locals =
    nr_extractions (history r')
    - match final_search_node locals with
      | Some _ => 1
      | None => if exceeded_max_nr_expanded_states locals then 1 else 0
      end.
Proof.
  apply (solve_loop_rule problem
    (fun nr0 _ r0 => nr0 = nr_extractions (history r0))
    (fun _ nr0 _ r0 => nr0 = nr_extractions (history r0))
    (fun locals r0 =>
       loc_nr_expanded_states locals =
         nr_extractions (history r0)
         - match final_search_node locals with
           | Some _ => 1
           | None => if exceeded_max_nr_expanded_states locals then 1 else 0
           end));
    try done.
  - intros nr0 ? r0 b0 -> _. simpl. lia.
  - intros nr0 ? r0 node b0 -> _ _. simpl.
    rewrite nr_extractions_snoc_extracted. lia.
  - intros nr0 ? r0 node b0 -> _ _ _. simpl.
    rewrite nr_extractions_snoc_extracted. lia.
  - intros nr0 ? r0 node b0 -> _ _ _. simpl.
    by rewrite nr_extractions_snoc_extracted.
  - intros node nr0 ? r0 operator_result ms' r1 ->
      (_ & _ & _ & _ & ->)%handle_successor_inv.
    by rewrite nr_extractions_snoc_successor.
Qed.

(** C4: in an iteration the goal test on the extracted node comes before
    the budget test.  If the node is a goal the loop is left with that node
    as the final node and the budget flag unset, whatever the number of
    expanded states; if it is not and the budget is reached, the loop is left
    with the flag set, right after the extraction: no state is counted, no
    successor is created.  And whenever the loop is left with the flag set,
    no final node is recorded and the last step was the extraction of a node
    that is not a goal. *)
Theorem goal_test_precedes_budget_test fuel problem nr max_stored r node b :
  _extract_next_search_node_to_expand problem (self r) = Ok (Some node, b) ->
  (is_goal problem (state node) = true ->
   solve_loop (S fuel) problem nr max_stored r
     = Ok (mkLocals (Some node) nr max_stored false,
           after_extraction r node b)) /\
  (is_goal problem (state node) = false -> budget_reached b nr = true ->
   solve_loop (S fuel) problem nr max_stored r
     = Ok (mkLocals None nr max_stored true, after_extraction r node b)) /\
  (forall locals r',
     solve_loop (S fuel) problem nr max_stored r = Ok (locals, r') ->
     exceeded_max_nr_expanded_states locals = true ->
     final_search_node locals = None /\
     exists n, is_goal problem (state n) = false /\
               last (history r') = Some (EvExtracted n (nr_stored (self r')))).
Proof.
  intros Hext. split_and!.
  - intros Hgoal. simpl. rewrite Hext. simpl. by rewrite Hgoal.
  - intros Hgoal Hbudget. simpl. rewrite Hext. simpl. by rewrite Hgoal, Hbudget.
  - intros locals r' (_ & Hexc & _)%solve_loop_terminal Hflag.
    destruct (Hexc Hflag) as (Hfinal & _ & n & Hgoal & Hlast & _). eauto.
Qed.

Lemma nr_extractions_seeded b n :
  nr_extractions (history (seeded_run b n)) = 0.
Proof. reflexivity. Qed.

(** C9: when a run with [use_close] stops on the budget, the last step was
    the extraction of a node that is not a goal; that node has left [open]
    and is in [close], and it is not among the expanded states, whose number
    is the number of extractions less this one. *)
Theorem budget_stop_leaves_node_in_close fuel b problem res r :
  use_close b = true ->
  strategy_preserves use_close ->
  solve_problem fuel b problem = Ok (res, r) ->
  stop_reason res = ExceededMaxNrStatesToExpand ->
  exists node,
    last (history r) = Some (EvExtracted node (nr_stored (self r))) /\
    is_goal problem (state node) = false /\
    (exists q, open (self r) = Some q /\ (node ∉ open_nodes q) /\
               open_has_state q (state node) = false) /\
    (exists c, close (self r) = Some c /\ has_node c node = true) /\
    nr_expanded_states res = nr_extractions (history r) - 1.
Proof.
  intros Huse Hstrategy Hrun Hstop.
  assert (use_close (self r) = true) as Huse'.
  { rewrite <- Huse.
    by apply (solve_problem_preserves use_close fuel b problem res r). }
  apply solve_problem_inv in Hrun as (b1 & q & q' & locals & _ & _ & _ & Hloop & ->).
  simpl in Hstop.
  destruct (exceeded_max_nr_expanded_states locals) eqn:Hflag; [|done].
  pose proof (solve_loop_count _ _ _ _ _ _ _ (eq_sym (nr_extractions_seeded _ _)) Hloop)
    as Hcount.
  apply solve_loop_terminal in Hloop as (_ & Hexc & _).
  destruct (Hexc Hflag) as (Hfinal & _ & node & Hgoal & Hlast & Hopen & Hclose).
  rewrite Hfinal, Hflag in Hcount.
  exists node. split_and!; [done..|by apply Hclose|done].
Qed.



(** *** Fuel

    A result reached with some fuel is the result with any more fuel: the
    fuel only bounds how far the model follows the loop. *)

Lemma solve_loop_fuel_mono problem fuel : forall fuel' nr max_stored r result,
  (fuel <= fuel')%nat ->
  solve_loop fuel problem nr max_stored r = Ok result ->
  solve_loop fuel' problem nr max_stored r = Ok result.
Proof.
  induction fuel as [|fuel IH]; intros fuel' nr ms r result Hle; [done|].
  destruct fuel' as [|fuel']; [lia|]. simpl.
  destruct (_extract_next_search_node_to_expand problem (self r))
    as [[[node|] b]| |]; simpl; [|done..].
  destruct (is_goal problem (state node)); [done|].
  destruct (budget_reached b nr); [done|].
  destruct (for_each_successor _ _ _ _ _) as [[ms1 r1]| |]; simpl; [|done..].
  apply IH. lia.
Qed.

Lemma solve_problem_fuel_mono fuel fuel' b problem result :
  (fuel <= fuel')%nat ->
  solve_problem fuel b problem = Ok result ->
  solve_problem fuel' b problem = Ok result.
Proof.
  intros Hle. rewrite !solve_problem_eq.
  destruct (_init_solver problem (reset_solver b)) as [b1| |]; simpl; [|done..].
  destruct (open b1) as [q|]; [|done].
  destruct (push_node q _) as [q'| |]; simpl; [|done..].
  destruct (solve_loop fuel _ _ _ _) as [[locals r]| |] eqn:Hloop;
    simpl; [|done..].
  by rewrite (solve_loop_fuel_mono _ _ _ _ _ _ _ Hle Hloop).
Qed.

(** *** The budget *)

Lemma extract_returns problem b :
  _extract_next_search_node_to_expand problem b <> OutOfFuel.
Proof.
  unfold _extract_next_search_node_to_expand.
  destruct (open b) as [q|]; [|done].
  destruct (is_empty q); [done|].
  unfold pop_next_node, hd_popitem.
  destruct (hd_min (pq_nodes_queue q)) as [[n p]|]; simpl; [|done].
  destruct (pq_state_to_search_node_mapping q !! state n); simpl; [|done].
  destruct (use_close b); [|done].
  destruct (close b) as [c|]; [|done].
  unfold add_node. case_bool_decide; done.
Qed.

Lemma handle_successor_returns problem node operator_result max_stored r :
  strategy_terminates ->
  handle_successor problem node operator_result max_stored r <> OutOfFuel.
Proof.
  intros [_ Hhook]. unfold handle_successor.
  destruct (criterion_accepts _ _).
  - destruct (_open_successor_node _ _ _) as [b'| |] eqn:Hb'; simpl; [|done|].
    + unfold _get_current_nr_stored_states. by destruct (open b').
    + by apply Hhook in Hb'.
  - simpl. unfold _get_current_nr_stored_states. by destruct (open (self r)).
Qed.

Lemma for_each_successor_returns problem node results :
  strategy_terminates ->
  forall max_stored r,
    for_each_successor problem node results max_stored r <> OutOfFuel.
Proof.
  intros Hterm. induction results as [|operator_result rest IH];
    intros ms r; simpl; [done|].
  destruct (handle_successor problem node operator_result ms r)
    as [[ms1 r1]| |] eqn:Hstep; simpl; [apply IH|done|].
  by apply handle_successor_returns in Hstep.
Qed.

Lemma for_each_successor_preserves {A : Type}
    (attribute : BestFirstSearch State -> A)
    problem node results max_stored r max_stored' r' :
  strategy_preserves attribute ->
  for_each_successor problem node results max_stored r = Ok (max_stored', r') ->
  attribute (self r') = attribute (self r).
Proof.
  intros Hstrategy Hfor.
  refine (for_each_successor_rule problem
            (fun _ _ _ r0 => attribute (self r0) = attribute (self r))
            _ node 0 results _ _ _ _ eq_refl Hfor).
  intros ? ? ? r0 ? ? r1 <- Hstep. by eapply handle_successor_preserves.
Qed.

Lemma budget_reached_false b nr k :
  max_nr_states_to_expand b = Some k -> budget_reached b nr = false -> nr < k.
Proof. unfold budget_reached. intros ->. lia. Qed.

Lemma budget_reached_true b nr k :
  max_nr_states_to_expand b = Some k -> budget_reached b nr = true -> k <= nr.
Proof. unfold budget_reached. intros ->. lia. Qed.

(** With a budget of [k] the loop is left within [k - nr + 1] iterations,
    and within one when the count has reached the budget already. *)
Lemma solve_loop_returns problem k fuel : forall nr max_stored r,
  strategy_terminates ->
  strategy_preserves max_nr_states_to_expand ->
  max_nr_states_to_expand (self r) = Some k ->
  (Z.to_nat (k - nr) < fuel)%nat ->
  solve_loop fuel problem nr max_stored r <> OutOfFuel.
Proof.
  induction fuel as [|fuel IH]; intros nr ms r Hterm Hpres Hk Hfuel;
    [lia|]. simpl.
  destruct (_extract_next_search_node_to_expand problem (self r))
    as [[[node|] b]| |] eqn:Hext; simpl; [|done..|by apply extract_returns in Hext].
  assert (max_nr_states_to_expand b = Some k) as Hkb.
  { rewrite <- Hk. by eapply (extract_preserves max_nr_states_to_expand). }
  destruct (is_goal problem (state node)); [done|].
  destruct (budget_reached b nr) eqn:Hbudget; [done|].
  pose proof (budget_reached_false _ _ _ Hkb Hbudget) as Hlt.
  destruct (for_each_successor _ _ _ _ _) as [[ms1 r1]| |] eqn:Hfor;
    simpl; [|done|by apply for_each_successor_returns in Hfor].
  apply IH; [done..| |lia].
  rewrite (for_each_successor_preserves max_nr_states_to_expand
             _ _ _ _ _ _ _ Hpres Hfor). done.
Qed.

Lemma solve_loop_within_budget fuel problem k nr max_stored r locals r' :
  strategy_preserves max_nr_states_to_expand ->
  max_nr_states_to_expand (self r) = Some k ->
  0 <= nr <= Z.max k 0 ->
  solve_loop fuel problem nr max_stored r = Ok (locals, r') ->
  max_nr_states_to_expand (self r') = Some k /\
  0 <= loc_nr_expanded_states locals <= Z.max k 0.
Proof.
  intros Hpres Hk Hnr.
  apply (solve_loop_rule problem
    (fun nr0 _ r0 => max_nr_states_to_expand (self r0) = Some k /\
                     0 <= nr0 <= Z.max k 0)
    (fun _ nr0 _ r0 => max_nr_states_to_expand (self r0) = Some k /\
                       0 <= nr0 <= Z.max k 0)
    (fun locals r0 => max_nr_states_to_expand (self r0) = Some k /\
                      0 <= loc_nr_expanded_states locals <= Z.max k 0));
    try done.
  - intros ? ? r0 b0 [<- ?] Hext. simpl. split; [|done].
    by eapply (extract_preserves max_nr_states_to_expand).
  - intros ? ? r0 ? b0 [<- ?] Hext _. simpl. split; [|done].
    by eapply (extract_preserves max_nr_states_to_expand).
  - intros ? ? r0 ? b0 [<- ?] Hext _ _. simpl. split; [|done].
    by eapply (extract_preserves max_nr_states_to_expand).
  - intros nr0 ? r0 ? b0 [Hk0 ?] Hext _ Hbudget. simpl.
    assert (max_nr_states_to_expand b0 = Some k) as Hkb.
    { rewrite <- Hk0. by eapply (extract_preserves max_nr_states_to_expand). }
    split; [done|]. pose proof (budget_reached_false _ _ _ Hkb Hbudget). lia.
  - intros ? ? ? r0 ? ? r1 [<- ?] Hstep. split; [|done].
    by eapply handle_successor_preserves.
Qed.

(** C3, as amended: with a budget of [k] expansions, kept by the hooks of
    the strategy, the run returns once it has fuel for [max k 0 + 1]
    iterations, and its result counts at most [max k 0] expanded states.
    The stop reason is [ExceededMaxNrStatesToExpand] exactly when no goal
    node was extracted and [open] yielded one node more than was expanded:
    that node, not a goal, is the last one extracted and was left
    unexpanded with the count at [max k 0].  It is
    [CompletedRunSuccessfully] exactly in the other cases: a path was
    found, or every extracted node was expanded and [open] was then found
    empty. *)
Theorem budget_enforcement fuel b problem k :
  max_nr_states_to_expand b = Some k ->
  strategy_preserves max_nr_states_to_expand ->
  (strategy_terminates -> (Z.to_nat k < fuel)%nat ->
   solve_problem fuel b problem <> OutOfFuel) /\
  (forall res r,
     solve_problem fuel b problem = Ok (res, r) ->
     0 <= nr_expanded_states res <= Z.max k 0 /\
     (stop_reason res = ExceededMaxNrStatesToExpand <->
      solution_path res = None /\
      nr_extractions (history r) = nr_expanded_states res + 1) /\
     (stop_reason res = CompletedRunSuccessfully <->
      (exists path, solution_path res = Some path) \/
      (nr_extractions (history r) = nr_expanded_states res /\
       exists q, open (self r) = Some q /\ is_empty q = true)) /\
     (stop_reason res = ExceededMaxNrStatesToExpand ->
      nr_expanded_states res = Z.max k 0 /\
      exists node,
        is_goal problem (state node) = false /\
        last (history r) = Some (EvExtracted node (nr_stored (self r))))).
Proof.
  intros Hk Hpres.
  assert (forall b1 q',
            _init_solver problem (reset_solver b) = Ok b1 ->
            max_nr_states_to_expand (set_open b1 (Some q')) = Some k) as Hseed.
  { intros b1 q' Hinit. simpl. destruct Hpres as [Hi _].
    by rewrite (Hi _ _ _ Hinit). }
  split.
  - intros Hterm Hfuel. rewrite solve_problem_eq.
    destruct (_init_solver problem (reset_solver b)) as [b1| |] eqn:Hinit;
      simpl; [|done|by apply Hterm in Hinit].
    destruct (open b1) as [q|]; [|done].
    destruct (push_node q _) as [q'| |] eqn:Hpush; simpl; [|done|].
    + destruct (solve_loop _ _ _ _ _) as [[locals r]| |] eqn:Hloop;
        simpl; [done..|].
      apply solve_loop_returns with (k := k) in Hloop; [done..| |].
      * by apply Hseed.
      * by rewrite Z.sub_0_r.
    + unfold push_node in Hpush. by case_bool_decide.
  - intros res r (b1 & q & q' & locals & Hinit & _ & _ & Hloop & ->)%solve_problem_inv.
    pose proof Hloop as Hwithin.
    apply (solve_loop_within_budget _ _ k) in Hwithin as [Hk' Hle];
      [|done|by apply Hseed|lia].
    pose proof (solve_loop_count _ _ _ _ _ _ _
                  (eq_sym (nr_extractions_seeded _ _)) Hloop) as Hcount.
    pose proof (solve_loop_terminal _ _ _ _ _ _ _ Hloop) as (Hgoal & Hexc & Hexh).
    simpl. split; [done|].
    destruct (final_search_node locals) as [node|] eqn:Hfinal.
    + destruct (Hgoal _ eq_refl) as (Hflag & _). rewrite Hflag.
      split_and!.
      * split; [done|]. by intros [? _].
      * split; [eauto|done].
      * done.
    + destruct (exceeded_max_nr_expanded_states locals) eqn:Hflag.
      * destruct (Hexc eq_refl) as (_ & Hbudget & node & Hg & Hlast & _).
        pose proof (budget_reached_true _ _ _ Hk' Hbudget).
        split_and!.
        -- split; [intros _; split; [done|lia]|done].
        -- split; [done|]. intros [[path ?]|[? _]]; [done|lia].
        -- intros _. split; [lia|eauto].
      * split_and!.
        -- split; [done|]. intros [_ ?]. lia.
        -- split; [|done]. intros _. right. split; [lia|by apply Hexh].
        -- done.
Qed.

(** *** The solution path *)

Lemma traverse_back_to_root_unfold n :
  traverse_back_to_root n =
  n :: match parent_search_node n with
       | Some p => traverse_back_to_root p
       | None => []
       end.
Proof. by destruct n. Qed.




Lemma make_states_path_last n :
  last (make_states_path n) = Some (state n).
Proof.
  unfold make_states_path. rewrite traverse_back_to_root_unfold.
  by rewrite fmap_cons, reverse_cons, last_snoc.
Qed.

Lemma stored_reset_solver b m : ~ stored (reset_solver b) m.
Proof.
  unfold reset_solver.
  intros [(q & [= <-] & Hin)|(c & s & Hc & Hs)].
  - by apply elem_of_nil in Hin.
  - simpl in Hc. destruct (use_close b); [|done].
    injection Hc as <-. simpl in Hs. by rewrite lookup_empty in Hs.
Qed.

Lemma stored_set_open_push b q node q' m :
  open b = Some q -> push_node q node = Ok q' ->
  stored (set_open b (Some q')) m -> m = node \/ stored b m.
Proof.
  intros Hopen Hpush [(q1 & [= <-] & Hin)|(c & s & Hc & Hs)].
  - apply (elem_of_open_nodes_push _ _ _ _ Hpush) in Hin as [->|Hin]; [by left|].
    right. left. eauto.
  - right. right. eauto.
Qed.



End EngineFacts.

(** ** The sample strategy meets the assumptions *)

Module SampleFacts.
Import Sample.

Lemma ucs_open_successor_node_inv problem n b b' :
  ucs_open_successor_node problem n b = Ok b' ->
  b' = b \/
  exists q q', open b = Some q /\ b' = set_open b (Some q') /\
               forall m, m ∈ open_nodes q' -> m = n \/ m ∈ open_nodes q.
Proof.
  unfold ucs_open_successor_node.
  destruct (open b) as [q|] eqn:Hopen; [|done].
  destruct (open_get_node_by_state q (state n)) as [old|].
  - destruct (g_cost n <? g_cost old); [|intros [= <-]; by left].
    destruct (extract_node q old) as [q1| |] eqn:Hextract; simpl; [|done..].
    destruct (push_node q1 n) as [q2| |] eqn:Hpush; simpl; [|done..].
    intros [= <-]. right. exists q, q2. split_and!; [done..|].
    intros m [->|Hin]%(elem_of_open_nodes_push _ _ _ _ Hpush); [by left|].
    apply (elem_of_open_nodes_extract _ _ _ _ Hextract) in Hin as [Hin _].
    by right.
  - destruct (match close b with Some c => _ | None => _ end);
      [intros [= <-]; by left|].
    destruct (push_node q n) as [q1| |] eqn:Hpush; simpl; [|done..].
    intros [= <-]. right. exists q, q1. split_and!; [done..|].
    intros m Hin. by apply (elem_of_open_nodes_push _ _ _ _ Hpush).
Qed.

Lemma ucs_preserves {A : Type} (attribute : BestFirstSearch string -> A) :
  (forall b x, attribute (set_open b x) = attribute b) ->
  strategy_preserves attribute.
Proof.
  intros Hopen. split.
  - intros problem b b' [= <-]. done.
  - intros problem n b b' [->|(q & q' & _ & -> & _)]%ucs_open_successor_node_inv;
      [done|apply Hopen].
Qed.

Lemma ucs_stores_offered_nodes : strategy_stores_offered_nodes.
Proof.
  split.
  - intros problem b b' m [= <-]. done.
  - intros problem n b b' m
      [->|(q & q' & Hopen & -> & Hsub)]%ucs_open_successor_node_inv;
      [by right|].
    intros [(q1 & [= <-] & Hin)|(c & s & Hc & Hs)].
    + destruct (Hsub _ Hin) as [->|Hin']; [by left|]. right. left. eauto.
    + right. right. eauto.
Qed.

Lemma ucs_terminates : strategy_terminates.
Proof.
  split; [done|]. intros problem n b. simpl. unfold ucs_open_successor_node.
  destruct (open b) as [q|]; [|done].
  assert (forall q0 n0, push_node q0 n0 <> OutOfFuel) as Hpush.
  { intros q0 n0. unfold push_node. by case_bool_decide. }
  destruct (open_get_node_by_state q (state n)) as [old|].
  - destruct (g_cost n <? g_cost old); [|done].
    unfold extract_node.
    destruct (pq_state_to_search_node_mapping q !! state old); simpl; [|done].
    unfold hd_pop. destruct (list_find _ _) as [[i e]|]; simpl; [|done].
    destruct (push_node _ n) eqn:Hp; simpl; [done..|]. by apply Hpush in Hp.
  - destruct (match close b with Some c => _ | None => _ end); [done|].
    destruct (push_node q n) eqn:Hp; simpl; [done..|]. by apply Hpush in Hp.
Qed.

End SampleFacts.

(** ** The properties on the sample runs *)

Module SampleRuns.
Import Sample SampleFacts.

(** The three end-to-end scenarios of the specification, under the
    uniform-cost strategy. *)
Example chain_scenario :
  fst <$> returned (solve_problem 10 (solver true None) chain) =
  Some {| solution_path := Some ["A"; "B"; "C"; "D"];
          nr_expanded_states := 3;
          result_max_nr_stored_states := 4;
          stop_reason := CompletedRunSuccessfully |}.
Proof. vm_compute. reflexivity. Qed.

Example dead_end_scenario :
  fst <$> returned (solve_problem 10 (solver true None) dead_end) =
  Some {| solution_path := None;
          nr_expanded_states := 1;
          result_max_nr_stored_states := 1;
          stop_reason := CompletedRunSuccessfully |}.
Proof. vm_compute. reflexivity. Qed.

Example budget_cutoff_scenario :
  fst <$> returned (solve_problem 10 (solver true (Some 1)) chain) =
  Some {| solution_path := None;
          nr_expanded_states := 1;
          result_max_nr_stored_states := 2;
          stop_reason := ExceededMaxNrStatesToExpand |}.
Proof. vm_compute. reflexivity. Qed.



(** Of two nodes of equal priority the one of larger [g_cost] is popped. *)
Lemma pop_next_node_least_sample :
  exists q',
    pop_next_node queue_bc = Ok (node_c, q') /\
    node_c ∈ open_nodes queue_bc /\
    (forall m, m ∈ open_nodes queue_bc ->
               tuple_le (node_priority_tuple node_c) (node_priority_tuple m)) /\
    (forall m, m ∈ open_nodes q' <-> m ∈ open_nodes queue_bc /\ m <> node_c) /\
    open_has_state q' (state node_c) = false.
Proof.
  assert (run_ops SearchNodesPriorityQueue_init [OpPush node_b; OpPush node_c]
          = Ok queue_bc) as Hrun by (vm_compute; reflexivity).
  assert (queue_sync queue_bc) as Hsync.
  { destruct (run_ops_sync [OpPush node_b; OpPush node_c]
                SearchNodesPriorityQueue_init queue_sync_init)
      as (q & Hrun' & Hsync); [vm_compute; tauto|].
    rewrite Hrun in Hrun'. by injection Hrun' as <-. }
  pose proof (run_ops_priorities _ _ _ queue_priorities_init Hrun) as Hprio.
  destruct (pop_next_node_least queue_bc Hsync Hprio eq_refl)
    as (node & q' & Hpop & Hrest).
  assert (node = node_c) as ->.
  { vm_compute in Hpop. by injection Hpop as <- _. }
  exists q'. split; [exact Hpop|exact Hrest].
Defined.

(** A sequence of pushes, a pop and an extraction. *)
Lemma queue_operations_keep_sync_sample :
  exists q,
    run_ops SearchNodesPriorityQueue_init
      [OpPush node_a; OpPush node_b; OpPop; OpPush node_c; OpExtract node_b]
      = Ok q /\
    queue_sync q /\
    open_len q = Z.of_nat (size (pq_state_to_search_node_mapping q)).
Proof.
  apply (queue_operations_keep_sync
           [OpPush node_a; OpPush node_b; OpPop; OpPush node_c; OpExtract node_b]).
  vm_compute. tauto.
Defined.

(** Each violation on a collection that holds [node_a]. *)
Lemma contract_violations_sample :
  push_node queue_a node_a = Raise AssertionError /\
  add_node close_a node_a = Raise AssertionError /\
  remove_node close_a node_b = Raise AssertionError /\
  extract_node queue_a node_b = Raise KeyError /\
  pop_next_node (SearchNodesPriorityQueue_init (State := string))
    = Raise IndexError.
Proof.
  destruct (contract_violations_raise (State := string))
    as (Hpush & Hadd & Hremove & Hextract & Hpop).
  split_and!.
  - apply Hpush. reflexivity.
  - apply Hadd. reflexivity.
  - apply Hremove. reflexivity.
  - apply Hextract. reflexivity.
  - apply Hpop. reflexivity.
Defined.

(** On the chain a budget of -1 stops the run at the first budget test:
    the number of expanded states, 0, is above the budget. *)
Lemma budget_negative_expands_none :
  max_nr_states_to_expand (solver true (Some (-1))) = Some (-1) /\
  exists res r,
    solve_problem 10 (solver true (Some (-1))) chain = Ok (res, r) /\
    nr_expanded_states res = 0 /\
    ~ nr_expanded_states res <= -1.
Proof.
  split; [reflexivity|].
  assert (exists res r,
            solve_problem 10 (solver true (Some (-1))) chain = Ok (res, r) /\
            nr_expanded_states res = 0) as (res & r & Hrun & Hnr)
    by (vm_compute; eauto).
  exists res, r. split_and!; [done..|]. rewrite Hnr. lia.
Qed.

(** The chain and the dead end with a budget of one expansion: on the chain
    B is extracted and left unexpanded, on the dead end A is expanded and
    [open] is then empty. *)
Lemma budget_enforcement_chain :
  (solve_problem 10 (solver true (Some 1)) chain <> OutOfFuel /\
   exists res r,
     solve_problem 10 (solver true (Some 1)) chain = Ok (res, r) /\
     solution_path res = None /\
     nr_extractions (history r) = nr_expanded_states res + 1 /\
     stop_reason res = ExceededMaxNrStatesToExpand /\
     nr_expanded_states res = 1) /\
  (exists res r,
     solve_problem 10 (solver true (Some 1)) dead_end = Ok (res, r) /\
     solution_path res = None /\
     nr_extractions (history r) = nr_expanded_states res /\
     stop_reason res = CompletedRunSuccessfully /\
     0 <= nr_expanded_states res <= 1).
Proof.
  split.
  - destruct (budget_enforcement 10 (solver true (Some 1)) chain 1)
      as [Hreturns Hresult]; [reflexivity|by apply ucs_preserves|].
    split; [apply Hreturns; [apply ucs_terminates|simpl; lia]|].
    assert (exists res r,
              solve_problem 10 (solver true (Some 1)) chain = Ok (res, r) /\
              solution_path res = None /\
              nr_extractions (history r) = nr_expanded_states res + 1)
      as (res & r & Hrun & Hpath & Hcount) by (vm_compute; eauto).
    exists res, r.
    destruct (Hresult res r Hrun) as (_ & Hexceeded & _ & Hwhen).
    assert (stop_reason res = ExceededMaxNrStatesToExpand) as Hstop
      by (by apply Hexceeded).
    destruct (Hwhen Hstop) as [Hnr _].
    split_and!; [done..|exact Hnr].
  - destruct (budget_enforcement 10 (solver true (Some 1)) dead_end 1)
      as [_ Hresult]; [reflexivity|by apply ucs_preserves|].
    assert (exists res r q,
              solve_problem 10 (solver true (Some 1)) dead_end = Ok (res, r) /\
              solution_path res = None /\
              nr_extractions (history r) = nr_expanded_states res /\
              open (self r) = Some q /\ is_empty q = true)
      as (res & r & q & Hrun & Hpath & Hcount & Hopen & Hempty)
      by (vm_compute; eauto 10).
    exists res, r.
    destruct (Hresult res r Hrun) as (Hle & _ & Hcompleted & _).
    assert (stop_reason res = CompletedRunSuccessfully) as Hstop.
    { apply Hcompleted. right. eauto. }
    split; [done|]. split; [done|]. split; [done|]. split; [done|exact Hle].
Defined.

(** With the budget spent, an extracted goal node ends the loop as goal
    found, and an extracted node that is not a goal ends it on the budget,
    unexpanded. *)
Lemma goal_test_precedes_budget_test_sample :
  (exists b,
     _extract_next_search_node_to_expand chain (self (spent_run node_d))
       = Ok (Some node_d, b) /\
     budget_reached b 0 = true /\
     solve_loop 1 chain 0 1 (spent_run node_d)
       = Ok (mkLocals (Some node_d) 0 1 false,
             after_extraction (spent_run node_d) node_d b)) /\
  (exists b,
     _extract_next_search_node_to_expand chain (self (spent_run node_a))
       = Ok (Some node_a, b) /\
     solve_loop 1 chain 0 1 (spent_run node_a)
       = Ok (mkLocals None 0 1 true,
             after_extraction (spent_run node_a) node_a b)).
Proof.
  split.
  - eexists. split; [vm_compute; reflexivity|]. split; [reflexivity|].
    eapply goal_test_precedes_budget_test; [vm_compute|]; reflexivity.
  - eexists. split; [vm_compute; reflexivity|].
    eapply goal_test_precedes_budget_test; [vm_compute|..]; reflexivity.
Defined.


(** The attribute of the solver after the run on the chain. *)
Lemma solve_problem_keeps_attribute_chain :
  exists res r,
    solve_problem 10 (solver true None) chain = Ok (res, r) /\
    max_nr_stored_states (self r) = 0 /\
    1 <= result_max_nr_stored_states res.
Proof.
  assert (exists res r,
            solve_problem 10 (solver true None) chain = Ok (res, r))
    as (res & r & Hrun) by (vm_compute; eauto).
  exists res, r. split; [exact Hrun|].
  apply (solve_problem_keeps_attribute 10 (solver true None) chain res r);
    [by apply ucs_preserves|reflexivity|exact Hrun].
Defined.


(** The chain with a budget of one expansion: B is extracted, moved to
    [close] and left unexpanded. *)
Lemma budget_stop_leaves_node_in_close_chain :
  exists res r node,
    solve_problem 10 (solver true (Some 1)) chain = Ok (res, r) /\
    last (history r) = Some (EvExtracted node (nr_stored (self r))) /\
    is_goal chain (state node) = false /\
    (exists q, open (self r) = Some q /\ (node ∉ open_nodes q) /\
               open_has_state q (state node) = false) /\
    (exists c, close (self r) = Some c /\ has_node c node = true) /\
    nr_expanded_states res = nr_extractions (history r) - 1.
Proof.
  assert (exists res r,
            solve_problem 10 (solver true (Some 1)) chain = Ok (res, r) /\
            stop_reason res = ExceededMaxNrStatesToExpand)
    as (res & r & Hrun & Hstop) by (vm_compute; eauto).
  destruct (budget_stop_leaves_node_in_close 10 (solver true (Some 1)) chain res r)
    as (node & Hnode);
    [reflexivity|by apply ucs_preserves|exact Hrun|exact Hstop|].
  exists res, r, node. split; [exact Hrun|exact Hnode].
Defined.

End SampleRuns.

(** * Further properties of the collections *)

Section CollectionExtras.
Context {State : Type} `{Countable State} `{Hash State}.
Implicit Types (q : SearchNodesPriorityQueue State) (c : SearchNodesCollection State).
Implicit Types (n m node : SearchNode State) (s : State).

Lemma hd_remove_absent (h : heapdict (SearchNode State)) node :
  node ∉ hd_keys h -> hd_remove node h = h.
Proof.
  unfold hd_keys, hd_remove. induction h as [|[k p] t IH]; [done|].
  rewrite fmap_cons, not_elem_of_cons. cbn [fst]. intros [Hne Hnin].
  rewrite filter_cons_True by (cbn [fst]; congruence). by rewrite IH.
Qed.

Lemma queue_sync_held q node :
  queue_sync q -> node ∈ open_nodes q ->
  pq_state_to_search_node_mapping q !! state node = Some node.
Proof. intros [_ Hsync] Hin. by apply Hsync. Qed.

Lemma size_pred_pos (A : Type) (mapping : gmap State A) s :
  is_Some (mapping !! s) ->
  Z.of_nat (size (delete s mapping)) = Z.of_nat (size mapping) - 1.
Proof.
  intros Hs. rewrite map_size_delete_Some by done.
  assert (size mapping <> 0%nat) as Hne.
  { apply map_size_ne_0_lookup. destruct Hs as [x Hx]. eauto. }
  lia.
Qed.

(** X1: a successful push makes the queue hold the node for its state and
    leaves what it holds for every other state as it was. *)
Theorem push_node_lookup q node q' :
  push_node q node = Ok q' ->
  open_has_state q' (state node) = true /\
  open_get_node_by_state q' (state node) = Some node /\
  forall s, s <> state node ->
            open_get_node_by_state q' s = open_get_node_by_state q s.
Proof.
  intros (_ & _ & Hm)%push_node_inv. unfold open_get_node_by_state.
  rewrite open_has_state_true, Hm, lookup_insert_eq. split_and!; [eauto|done|].
  intros s Hne. by rewrite lookup_insert_ne.
Qed.

(** X2: pushing a node for an absent state and then extracting that node
    gives back the queue one started from. *)
Theorem push_then_extract q node :
  queue_sync q ->
  open_has_state q (state node) = false ->
  exists q1, push_node q node = Ok q1 /\ extract_node q1 node = Ok q.
Proof.
  intros Hsync Habsent%open_has_state_false.
  destruct (push_node_absent _ _ Habsent) as [q1 Hpush].
  exists q1. split; [done|].
  pose proof (push_node_inv _ _ _ Hpush) as (_ & Hh & Hm).
  assert (node ∉ open_nodes q) as Hnin.
  { intros Hin. apply (queue_sync_held _ _ Hsync) in Hin. congruence. }
  unfold extract_node. rewrite Hm, lookup_insert_eq.
  assert (node ∈ hd_keys (pq_nodes_queue q1)) as Hin.
  { rewrite Hh, hd_keys_setitem, elem_of_app, list_elem_of_singleton. by right. }
  destruct (hd_pop_present _ _ Hin) as [p ->].
  rewrite delete_insert_id by done. rewrite Hh. unfold hd_setitem.
  rewrite (hd_remove_absent _ _ Hnin). unfold hd_remove at 1.
  rewrite filter_app, filter_cons_False, filter_nil, app_nil_r
    by (cbn [fst]; tauto).
  fold (hd_remove node (pq_nodes_queue q)).
  rewrite (hd_remove_absent _ _ Hnin). by destruct q.
Qed.

(** X3: on a queue in sync that is not empty, [peek_next_node] returns the
    node [pop_next_node] would return, and that node is the one the queue
    holds for its state. *)
Theorem peek_agrees_with_pop q :
  queue_sync q -> is_empty q = false ->
  exists node q',
    peek_next_node q = Ok node /\
    pop_next_node q = Ok (node, q') /\
    open_get_node_by_state q (state node) = Some node.
Proof.
  intros Hsync Hne. unfold is_empty in Hne.
  destruct (hd_popitem_nonempty _ Hne) as ([node p] & Hmin & Hpop).
  assert (pq_state_to_search_node_mapping q !! state node = Some node) as Hheld.
  { apply queue_sync_held; [done|]. by apply hd_min_elem, hd_keys_elem in Hmin. }
  eexists node, _. split_and!; [| |done].
  - unfold peek_next_node, hd_peekitem. by rewrite Hmin.
  - unfold pop_next_node. rewrite Hpop. simpl. by rewrite Hheld.
Qed.

(** X4: after a node has been popped or extracted, the queue, which held
    that very node for its state, holds nothing for that state, and what it
    holds for every other state is as it was. *)
Theorem removal_lookup q node q' :
  queue_sync q ->
  pop_next_node q = Ok (node, q') \/ extract_node q node = Ok q' ->
  open_get_node_by_state q (state node) = Some node /\
  open_has_state q' (state node) = false /\
  forall s, s <> state node ->
            open_get_node_by_state q' s = open_get_node_by_state q s.
Proof.
  intros Hsync Hremoved.
  assert (node ∈ open_nodes q /\
          pq_state_to_search_node_mapping q' =
            delete (state node) (pq_state_to_search_node_mapping q)) as [Hin Hm].
  { destruct Hremoved as [Hpop|Hextract].
    - split; [by eapply pop_next_node_elem|].
      by apply pop_next_node_inv in Hpop as (_ & _ & _ & ?).
    - by apply extract_node_inv in Hextract as (_ & ? & _ & ?). }
  unfold open_get_node_by_state. split_and!.
  - by apply queue_sync_held.
  - apply open_has_state_false. rewrite Hm. apply lookup_delete_eq.
  - intros s Hne. rewrite Hm. by apply lookup_delete_ne.
Qed.

(** X5: on a queue in sync a push makes the queue one node longer, and a
    pop or an extraction makes it one node shorter. *)
Theorem open_len_changes q node q' :
  queue_sync q ->
  (push_node q node = Ok q' -> open_len q' = open_len q + 1) /\
  (pop_next_node q = Ok (node, q') -> open_len q' = open_len q - 1) /\
  (extract_node q node = Ok q' -> open_len q' = open_len q - 1).
Proof.
  intros Hsync. split_and!.
  - intros Hpush. rewrite (queue_sync_len _ (queue_sync_push _ _ _ Hsync Hpush)).
    rewrite (queue_sync_len _ Hsync).
    apply push_node_inv in Hpush as (Habsent & _ & ->).
    rewrite map_size_insert_None by done. lia.
  - intros Hpop. rewrite (queue_sync_len _ (queue_sync_pop _ _ _ Hsync Hpop)).
    rewrite (queue_sync_len _ Hsync).
    apply pop_next_node_inv in Hpop as (_ & Hs & _ & ->).
    by apply size_pred_pos.
  - intros Hextract.
    rewrite (queue_sync_len _ (queue_sync_extract _ _ _ Hsync Hextract)).
    rewrite (queue_sync_len _ Hsync).
    apply extract_node_inv in Hextract as (Hs & _ & _ & ->).
    by apply size_pred_pos.
Qed.

(** X6: extracting a node whose state the queue holds under another node
    object raises [KeyError]: the heap does not know the node. *)
Theorem extract_stale_node q node m :
  queue_sync q ->
  open_get_node_by_state q (state node) = Some m ->
  m <> node ->
  extract_node q node = Raise KeyError.
Proof.
  intros [_ Hsync] Hheld Hne. unfold open_get_node_by_state in Hheld.
  unfold extract_node. rewrite Hheld.
  rewrite hd_pop_absent; [done|].
  intros Hin. assert (pq_state_to_search_node_mapping q !! state node = Some node)
    as Hnode by (by apply Hsync). congruence.
Qed.

(** X7: a queue in sync is empty exactly when its length is 0, and exactly
    when it holds no state. *)
Theorem is_empty_iff q :
  queue_sync q ->
  (is_empty q = true <-> open_len q = 0) /\
  (is_empty q = true <-> forall s, open_has_state q s = false).
Proof.
  intros [_ Hsync]. unfold is_empty, open_len, hd_len. split.
  - destruct (pq_nodes_queue q); simpl; split; (done || lia).
  - split.
    + intros Hempty s. apply open_has_state_false.
      destruct (pq_state_to_search_node_mapping q !! s) as [n|] eqn:Hs; [|done].
      apply Hsync in Hs as [Hin _]. unfold open_nodes in Hin.
      destruct (pq_nodes_queue q); [|done]. by apply elem_of_nil in Hin.
    + intros Hnone. destruct (pq_nodes_queue q) as [|[n p] t] eqn:Hh; [done|].
      specialize (Hnone (state n)). apply open_has_state_false in Hnone.
      assert (pq_state_to_search_node_mapping q !! state n = Some n) as Hn.
      { apply Hsync. split; [|done]. unfold open_nodes. rewrite Hh. left. }
      congruence.
Qed.

(** X8: adding a node for an absent state makes [close] hold that very
    node and grow by one, and removing it again gives back the set one
    started from. *)
Theorem add_then_remove c node :
  close_has_state c (state node) = false ->
  exists c1,
    add_node c node = Ok c1 /\
    has_node c1 node = true /\
    close_get_node_by_state c1 (state node) = Some node /\
    close_len c1 = close_len c + 1 /\
    remove_node c1 node = Ok c.
Proof.
  unfold close_has_state. intros Habsent.
  assert (col_state_to_search_node_mapping c !! state node = None) as Hnone.
  { apply bool_decide_eq_false in Habsent. by apply eq_None_not_Some. }
  destruct (add_node c node) as [c1| |] eqn:Hadd;
    [|unfold add_node in Hadd; by rewrite Habsent in Hadd..].
  exists c1. split; [done|].
  pose proof (add_node_inv _ _ _ Hadd) as [_ Hm].
  split_and!.
  - by eapply has_node_add.
  - unfold close_get_node_by_state. rewrite Hm. apply lookup_insert_eq.
  - by eapply close_len_add.
  - unfold remove_node. rewrite Hm, lookup_insert_eq.
    rewrite bool_decide_eq_true_2 by eauto.
    rewrite delete_insert_id by done. by destruct c.
Qed.

(** X9: [remove_node] goes by the state of the node it is given: when
    [close] holds that state, under this or under another node object, the
    entry is evicted, [close] shrinks by one and every other state stays. *)
Theorem remove_node_by_state c node m :
  close_get_node_by_state c (state node) = Some m ->
  exists c',
    remove_node c node = Ok c' /\
    close_has_state c' (state node) = false /\
    close_len c' = close_len c - 1 /\
    forall s, s <> state node ->
              close_get_node_by_state c' s = close_get_node_by_state c s.
Proof.
  unfold close_get_node_by_state. intros Hheld.
  unfold remove_node. rewrite bool_decide_eq_true_2 by eauto.
  eexists. split; [done|]. unfold close_has_state, close_len. simpl.
  split_and!.
  - apply bool_decide_eq_false. rewrite lookup_delete_eq. by intros [? ?].
  - apply size_pred_pos. eauto.
  - intros s Hne. by apply lookup_delete_ne.
Qed.

(** X10: [has_node] tells node objects apart.  When [close] holds a node,
    another node object for the same state is not held although its state
    is; removing the held node and adding the other one swaps the two and
    keeps the size. *)
Theorem replace_closed_node c old new :
  has_node c old = true ->
  state new = state old ->
  new <> old ->
  has_node c new = false /\
  close_has_state c (state new) = true /\
  exists c1 c2,
    remove_node c old = Ok c1 /\
    add_node c1 new = Ok c2 /\
    has_node c2 new = true /\
    has_node c2 old = false /\
    close_len c2 = close_len c.
Proof.
  unfold has_node at 1. rewrite andb_true_iff, !bool_decide_eq_true.
  intros [_ Hheld] Hstate Hne.
  split_and!.
  - unfold has_node. apply andb_false_iff. right. apply bool_decide_eq_false.
    rewrite Hstate, Hheld. congruence.
  - unfold close_has_state. apply bool_decide_eq_true. rewrite Hstate. eauto.
  - unfold remove_node. rewrite bool_decide_eq_true_2 by eauto.
    eexists _, _. split; [reflexivity|].
    unfold add_node. simpl. rewrite Hstate, lookup_delete_eq.
    rewrite bool_decide_eq_false_2 by (by intros [? ?]).
    split; [reflexivity|]. split_and!.
    + unfold has_node. simpl. rewrite Hstate, lookup_insert_eq.
      rewrite andb_true_iff, !bool_decide_eq_true. eauto.
    + unfold has_node. simpl. rewrite lookup_insert_eq.
      apply andb_false_iff. right. apply bool_decide_eq_false. congruence.
    + unfold close_len. simpl.
      rewrite map_size_insert_None by apply lookup_delete_eq.
      rewrite Nat2Z.inj_succ, size_pred_pos by eauto. lia.
Qed.

End CollectionExtras.

(** * Further properties of the engine *)

Section EngineExtras.
Context {State : Type} `{Countable State} `{Hash State} `{!Strategy State}.
Implicit Types (b : BestFirstSearch State) (r : Run State).
Implicit Types (q : SearchNodesPriorityQueue State) (c : SearchNodesCollection State).
Implicit Types (n m node : SearchNode State) (problem : GraphProblem State).
Implicit Types (nr max_stored : Z) (locals : Locals State).

(** *** The first iteration *)

Lemma push_node_init node :
  push_node SearchNodesPriorityQueue_init node = Ok (singleton_queue node).
Proof.
  unfold push_node. simpl. rewrite lookup_empty.
  rewrite bool_decide_eq_false_2 by (by intros [? ?]). done.
Qed.

Lemma pop_next_node_singleton node :
  pop_next_node (singleton_queue node) = Ok (node, SearchNodesPriorityQueue_init).
Proof.
  unfold pop_next_node, hd_popitem. simpl. rewrite lookup_insert_eq.
  unfold hd_remove. rewrite filter_cons_False, filter_nil by (cbn [fst]; tauto).
  by rewrite delete_insert_id by apply lookup_empty.
Qed.

Lemma nr_stored_seeded b node :
  nr_stored (set_open (reset_solver b) (Some (singleton_queue node))) = 1.
Proof.
  unfold nr_stored, reset_solver. simpl.
  destruct (use_close b); unfold close_len; simpl; [rewrite map_size_empty|]; done.
Qed.

(** The solver after the only node of the seeded queue has been extracted. *)
Lemma extract_seeded problem b node :
  exists b',
    _extract_next_search_node_to_expand problem
      (set_open (reset_solver b) (Some (singleton_queue node)))
      = Ok (Some node, b') /\
    open b' = Some SearchNodesPriorityQueue_init /\
    nr_stored b' <= 1 /\
    max_nr_states_to_expand b' = max_nr_states_to_expand b /\
    open_criterion b' = open_criterion b.
Proof.
  unfold _extract_next_search_node_to_expand, reset_solver. simpl.
  rewrite pop_next_node_singleton. simpl.
  destruct (use_close b) eqn:Huse; simpl.
  - unfold add_node. simpl. rewrite lookup_empty.
    rewrite bool_decide_eq_false_2 by (by intros [? ?]). simpl.
    eexists. split_and!; [done..| |done|done].
    unfold nr_stored, close_len. simpl.
    rewrite map_size_insert_None by apply lookup_empty.
    rewrite map_size_empty. done.
  - eexists. split_and!; done.
Qed.

Lemma extract_exhausted problem b :
  open b = Some SearchNodesPriorityQueue_init ->
  _extract_next_search_node_to_expand problem b = Ok (None, b).
Proof. unfold _extract_next_search_node_to_expand. by intros ->. Qed.

Lemma solve_problem_default_init fuel b problem :
  default_init_solver problem b ->
  solve_problem fuel b problem =
  '(locals, r) ←
    solve_loop fuel problem 0 1
      (seeded_run
         (set_open (reset_solver b)
            (Some (singleton_queue
                     (initial_search_node_of problem (reset_solver b)))))
         (initial_search_node_of problem (reset_solver b)));
  Ok (result_of_locals locals, r).
Proof.
  intros Hinit. rewrite solve_problem_eq.
  unfold default_init_solver in Hinit. rewrite Hinit. simpl.
  rewrite push_node_init. simpl. by rewrite nr_stored_seeded.
Qed.

(** X11: when the initial state is a goal, a run under the default
    [_init_solver] returns the path made of that state alone, with no state
    expanded and one node stored, whatever the budget and the strategy. *)
Theorem goal_at_initial_state fuel b problem :
  default_init_solver problem b ->
  is_goal problem (initial_state problem) = true ->
  exists r,
    solve_problem (S fuel) b problem =
    Ok ({| solution_path := Some [initial_state problem];
           nr_expanded_states := 0;
           result_max_nr_stored_states := 1;
           stop_reason := CompletedRunSuccessfully |}, r).
Proof.
  intros Hinit Hgoal. rewrite (solve_problem_default_init _ _ _ Hinit).
  set (node := initial_search_node_of problem (reset_solver b)).
  destruct (extract_seeded problem b node) as (b' & Hext & _).
  simpl. rewrite Hext. simpl. rewrite Hgoal. simpl. eauto.
Qed.

(** X12: with a budget of 0 or less and an initial state that is not a
    goal, a run under the default [_init_solver] stops on the budget at
    once: no path, no state expanded, one node stored. *)
Theorem budget_spent_at_start fuel b problem k :
  default_init_solver problem b ->
  is_goal problem (initial_state problem) = false ->
  max_nr_states_to_expand b = Some k ->
  k <= 0 ->
  exists r,
    solve_problem (S fuel) b problem =
    Ok ({| solution_path := None;
           nr_expanded_states := 0;
           result_max_nr_stored_states := 1;
           stop_reason := ExceededMaxNrStatesToExpand |}, r).
Proof.
  intros Hinit Hgoal Hk Hle. rewrite (solve_problem_default_init _ _ _ Hinit).
  set (node := initial_search_node_of problem (reset_solver b)).
  destruct (extract_seeded problem b node) as (b' & Hext & _ & _ & Hk' & _).
  simpl. rewrite Hext. simpl. rewrite Hgoal.
  unfold budget_reached. rewrite Hk', Hk.
  destruct (k <=? 0) eqn:Hcmp; [|lia]. simpl. eauto.
Qed.

Lemma for_each_successor_rejected problem node results : forall max_stored r q,
  (forall n, criterion_accepts (self r) n = false) ->
  open (self r) = Some q ->
  nr_stored (self r) <= max_stored ->
  exists r',
    for_each_successor problem node results max_stored r = Ok (max_stored, r') /\
    self r' = self r.
Proof.
  induction results as [|operator_result rest IH]; intros ms r q Hrej Hopen Hle;
    simpl; [eauto|].
  unfold handle_successor. rewrite Hrej. simpl.
  unfold _get_current_nr_stored_states. rewrite Hopen. simpl.
  change (open_len q + match close (self r) with
                       | Some c => close_len c
                       | None => 0
                       end)
    with (match Some q with Some q0 => open_len q0 | None => 0 end
          + match close (self r) with
            | Some c => close_len c
            | None => 0
            end).
  rewrite <- Hopen. fold (nr_stored (self r)).
  rewrite Z.max_l by done.
  edestruct IH as (r' & Hfor & Hself); [| | |rewrite Hfor; eauto]; simpl; eauto.
Qed.

(** X13: when the initial state is not a goal and has no successor, or the
    criterion accepts no node, a run under the default [_init_solver] with
    budget left expands the initial state alone, never calls the admission
    hook, and ends on the exhausted queue with no path. *)
Theorem nothing_opened fuel b problem :
  default_init_solver problem b ->
  is_goal problem (initial_state problem) = false ->
  budget_reached b 0 = false ->
  expand_state_with_costs problem (initial_state problem) = [] \/
  (forall n, criterion_accepts b n = false) ->
  exists r,
    solve_problem (S (S fuel)) b problem =
    Ok ({| solution_path := None;
           nr_expanded_states := 1;
           result_max_nr_stored_states := 1;
           stop_reason := CompletedRunSuccessfully |}, r).
Proof.
  intros Hinit Hgoal Hbudget Hnone.
  rewrite (solve_problem_default_init _ _ _ Hinit).
  set (node := initial_search_node_of problem (reset_solver b)).
  destruct (extract_seeded problem b node)
    as (b' & Hext & Hopen & Hstored & Hk & Hcrit).
  assert (budget_reached b' 0 = false) as Hbudget'.
  { unfold budget_reached in *. by rewrite Hk. }
  change (solve_loop (S (S fuel)) problem 0 1 ?r0) with
    ('(next_node_to_expand, b0) ←
       _extract_next_search_node_to_expand problem (self r0);
     match next_node_to_expand with
     | None =>
         Ok (mkLocals None 0 1 false,
             {| self := b0; next_node_id := next_node_id r0;
                history := history r0 |})
     | Some node0 =>
         if is_goal problem (state node0) then
           Ok (mkLocals (Some node0) 0 1 false, after_extraction r0 node0 b0)
         else if budget_reached b0 0 then
           Ok (mkLocals None 0 1 true, after_extraction r0 node0 b0)
         else
           '(max_stored, r1) ←
             for_each_successor problem node0
               (expand_state_with_costs problem (state node0)) 1
               (after_extraction r0 node0 b0);
           solve_loop (S fuel) problem (0 + 1) max_stored r1
     end).
  simpl self. rewrite Hext. simpl. rewrite Hgoal, Hbudget'.
  assert (exists r1,
            for_each_successor problem node
              (expand_state_with_costs problem (initial_state problem)) 1
              (after_extraction
                 (seeded_run (set_open (reset_solver b)
                                (Some (singleton_queue node))) node) node b')
              = Ok (1, r1) /\ self r1 = b') as (r1 & -> & Hself).
  { destruct Hnone as [-> | Hrej].
    - simpl. eauto.
    - eapply for_each_successor_rejected; simpl; [|done..].
      intros n. unfold criterion_accepts in *. rewrite Hcrit. apply Hrej. }
  simpl. rewrite Hself, (extract_exhausted _ _ Hopen). simpl. eauto.
Qed.

(** *** Extraction *)

(** X14: with [use_close], extracting a node whose state [close] already
    holds fails the assertion of [add_node]: the run raises. *)
Theorem extract_closed_state_raises problem b q c node q' :
  open b = Some q ->
  close b = Some c ->
  use_close b = true ->
  pop_next_node q = Ok (node, q') ->
  close_has_state c (state node) = true ->
  _extract_next_search_node_to_expand problem b = Raise AssertionError.
Proof.
  intros Hopen Hclose Huse Hpop Hheld.
  unfold _extract_next_search_node_to_expand. rewrite Hopen.
  assert (is_empty q = false) as ->.
  { apply pop_next_node_inv in Hpop as ([p Hmin] & _).
    unfold is_empty. by destruct (pq_nodes_queue q). }
  rewrite Hpop. simpl. rewrite Huse, Hclose.
  unfold add_node. unfold close_has_state in Hheld. by rewrite Hheld.
Qed.

(** X15: extracting from a queue in sync moves one node: with [use_close]
    the number of stored nodes stays and [close] holds the node, without it
    the number drops by one and [close] is left as it is. *)
Theorem extract_moves_one_node problem b node b' :
  open_in_sync b ->
  _extract_next_search_node_to_expand problem b = Ok (Some node, b') ->
  (use_close b = true ->
   nr_stored b' = nr_stored b /\
   exists c', close b' = Some c' /\ has_node c' node = true) /\
  (use_close b = false ->
   nr_stored b' = nr_stored b - 1 /\ close b' = close b).
Proof.
  intros Hsync (q & q' & Hopen & _ & Hpop & Hcase)%extract_Some_inv.
  assert (open_len q' = open_len q - 1) as Hlen.
  { pose proof (queue_sync_len _ (Hsync _ Hopen)) as Hq.
    pose proof (queue_sync_len _ (queue_sync_pop _ _ _ (Hsync _ Hopen) Hpop)) as Hq'.
    rewrite Hq, Hq'.
    apply pop_next_node_inv in Hpop as (_ & Hs & _ & ->).
    rewrite map_size_delete_Some by done.
    assert (size (pq_state_to_search_node_mapping q) <> 0%nat).
    { apply map_size_ne_0_lookup. destruct Hs as [x Hx]. eauto. }
    lia. }
  destruct Hcase as [(Huse & c & c' & Hclose & Hadd & ->)|(Huse & ->)].
  - split; intros Huse'; [|congruence].
    unfold nr_stored. simpl. rewrite Hopen, Hclose.
    rewrite (close_len_add _ _ _ Hadd). split; [lia|].
    exists c'. split; [done|]. by eapply has_node_add.
  - split; intros Huse'; [congruence|].
    unfold nr_stored. simpl. rewrite Hopen. split; [lia|done].
Qed.

(** *** Whole runs *)

(** X16: without a budget, and with hooks that set none, a run never
    reports [ExceededMaxNrStatesToExpand]. *)
Theorem no_budget_never_exceeded fuel b problem res r :
  strategy_preserves max_nr_states_to_expand ->
  max_nr_states_to_expand b = None ->
  solve_problem fuel b problem = Ok (res, r) ->
  stop_reason res = CompletedRunSuccessfully.
Proof.
  intros Hpres Hnone Hrun.
  assert (max_nr_states_to_expand (self r) = None) as Hend.
  { rewrite <- Hnone.
    by apply (solve_problem_preserves max_nr_states_to_expand
                fuel b problem res r). }
  apply solve_problem_inv in Hrun as (b1 & q & q' & locals & _ & _ & _ & Hloop & ->).
  simpl. destruct (exceeded_max_nr_expanded_states locals) eqn:Hflag; [|done].
  apply solve_loop_terminal in Hloop as (_ & Hexc & _).
  destruct (Hexc Hflag) as (_ & Hbudget & _).
  unfold budget_reached in Hbudget. by rewrite Hend in Hbudget.
Qed.

(** X17: the number of expanded states a run reports is never negative and
    is the number of extractions, less the last one when the run ended on a
    goal or on the budget. *)
Theorem nr_expanded_states_counts_expansions fuel b problem res r :
  solve_problem fuel b problem = Ok (res, r) ->
  0 <= nr_expanded_states res /\
  nr_expanded_states res =
    nr_extractions (history r)
    - match solution_path res, stop_reason res with
      | None, CompletedRunSuccessfully => 0
      | _, _ => 1
      end.
Proof.
  intros (b1 & q & q' & locals & _ & _ & _ & Hloop & ->)%solve_problem_inv.
  pose proof (solve_loop_count _ _ _ _ _ _ _ (eq_sym (nr_extractions_seeded _ _)) Hloop)
    as Hcount.
  pose proof (solve_loop_terminal _ _ _ _ _ _ _ Hloop) as (Hgoal & Hexc & _).
  assert (forall n, extracted_last r n -> 1 <= nr_extractions (history r)) as Hone.
  { intros n [Hlast _]. apply last_Some in Hlast as [l ->].
    rewrite nr_extractions_snoc_extracted.
    unfold nr_extractions. lia. }
  simpl. rewrite Hcount.
  destruct (final_search_node locals) as [n|] eqn:Hfinal.
  - destruct (Hgoal _ eq_refl) as (_ & _ & Hlast). specialize (Hone _ Hlast).
    destruct (exceeded_max_nr_expanded_states locals); lia.
  - destruct (exceeded_max_nr_expanded_states locals) eqn:Hflag.
    + destruct (Hexc eq_refl) as (_ & _ & n & _ & Hlast).
      specialize (Hone _ Hlast). lia.
    + unfold nr_extractions. lia.
Qed.

(** X19: the engine keeps [open] in sync: when the hooks of the strategy
    leave the queue in sync whenever they find it so, it is in sync when the
    run returns. *)
Theorem open_stays_in_sync fuel b problem res r :
  (forall problem b b',
     open_in_sync b -> _init_solver problem b = Ok b' -> open_in_sync b') ->
  (forall problem n b b',
     open_in_sync b -> _open_successor_node problem n b = Ok b' ->
     open_in_sync b') ->
  solve_problem fuel b problem = Ok (res, r) ->
  open_in_sync (self r).
Proof.
  intros Hinit Hhook
    (b1 & q & q' & locals & Hb1 & Hopen & Hpush & Hloop & _)%solve_problem_inv.
  assert (forall b0 o b0',
            open_in_sync b0 ->
            _extract_next_search_node_to_expand problem b0 = Ok (o, b0') ->
            open_in_sync b0') as Hextract.
  { intros b0 [node|] b0' Hsync Hext.
    - apply extract_Some_inv in Hext as (q0 & q0' & Hq0 & _ & Hpop & Hcase).
      assert (queue_sync q0') by (eapply queue_sync_pop; [by apply Hsync|done]).
      destruct Hcase as [(_ & c & c' & _ & _ & ->)|(_ & ->)];
        by intros ? [= <-].
    - by apply extract_None_inv in Hext as [-> _]. }
  revert Hloop.
  apply (solve_loop_rule problem
           (fun _ _ r0 => open_in_sync (self r0))
           (fun _ _ _ r0 => open_in_sync (self r0))
           (fun _ r0 => open_in_sync (self r0))); try done.
  - intros ? ? r0 b0 Hsync Hext. simpl. by eapply Hextract.
  - intros ? ? r0 ? b0 Hsync Hext _. simpl. by eapply Hextract.
  - intros ? ? r0 ? b0 Hsync Hext _ _. simpl. by eapply Hextract.
  - intros ? ? r0 ? b0 Hsync Hext _ _. simpl. by eapply Hextract.
  - intros ? ? ? r0 ? ? r1 Hsync (Hstep & _)%handle_successor_inv.
    destruct (criterion_accepts _ _); [by eapply Hhook|by rewrite Hstep].
  - simpl. intros ? [= <-]. eapply queue_sync_push; [|done].
    assert (open_in_sync b1) as Hsync1.
    { eapply Hinit; [|done]. intros ? [= <-]. apply queue_sync_init. }
    by apply Hsync1.
Qed.

(** *** The solution path follows the problem *)

Lemma path_of_problem_snoc problem (path : list State) s :
  path_of_problem problem path ->
  (forall s0, last path = Some s0 -> is_successor problem s0 s) ->
  path_of_problem problem (path ++ [s]).
Proof.
  induction path as [|a [|a' rest] IH]; intros Hpath Hlast.
  - done.
  - simpl. split; [|done]. by apply Hlast.
  - destruct Hpath as [Hstep Hrest]. split; [done|].
    apply IH; [done|]. intros s0 Hs0. apply Hlast.
    by rewrite last_cons_cons.
Qed.

Lemma expanded_from_root_unfold problem n :
  expanded_from_root problem n =
  match parent_search_node n with
  | Some p =>
      is_successor problem (state p) (state n) /\ expanded_from_root problem p
  | None => state n = initial_state problem
  end.
Proof. by destruct n. Qed.

Lemma make_states_path_child n p :
  parent_search_node n = Some p ->
  make_states_path n = make_states_path p ++ [state n].
Proof.
  intros Hp. unfold make_states_path.
  rewrite (traverse_back_to_root_unfold n), Hp.
  by rewrite fmap_cons, reverse_cons.
Qed.

Lemma make_states_path_root n :
  parent_search_node n = None -> make_states_path n = [state n].
Proof.
  intros Hp. unfold make_states_path.
  by rewrite (traverse_back_to_root_unfold n), Hp.
Qed.

Lemma path_of_expanded_node problem :
  forall n, expanded_from_root problem n ->
            path_of_problem problem (make_states_path n).
Proof.
  fix IH 1. intros n. rewrite expanded_from_root_unfold.
  destruct n as [id s [p|] cost name prio g];
    cbn [parent_search_node state].
  - intros [Hstep Hp].
    erewrite make_states_path_child by reflexivity. cbn [state].
    apply path_of_problem_snoc; [by apply IH|].
    intros s0. rewrite make_states_path_last. by intros [= <-].
  - intros _. by rewrite make_states_path_root.
Qed.

Lemma for_each_successor_on_graph problem node results :
  strategy_stores_offered_nodes ->
  expanded_from_root problem node ->
  (forall operator_result,
     operator_result ∈ results ->
     operator_result ∈ expand_state_with_costs problem (state node)) ->
  forall max_stored r max_stored' r',
    (forall m, stored (self r) m -> expanded_from_root problem m) ->
    for_each_successor problem node results max_stored r
      = Ok (max_stored', r') ->
    forall m, stored (self r') m -> expanded_from_root problem m.
Proof.
  intros [_ Hhook] Hnode. induction results as [|operator_result rest IH];
    intros Hin ms r ms' r' Hinv; simpl.
  - by intros [= <- <-].
  - destruct (handle_successor problem node operator_result ms r)
      as [[ms1 r1]| |] eqn:Hstep; simpl; [|done..].
    apply IH.
    + intros op Hop. apply Hin. by right.
    + apply handle_successor_inv in Hstep as (Hstep & _).
      intros m Hm. destruct (criterion_accepts _ _).
      * destruct (Hhook _ _ _ _ _ Hstep Hm) as [->|Hm']; [|by apply Hinv].
        rewrite expanded_from_root_unfold. simpl. split; [|done].
        exists operator_result. split; [|done]. apply Hin. left.
      * rewrite Hstep in Hm. by apply Hinv.
Qed.

Lemma solve_loop_on_graph problem fuel :
  strategy_stores_offered_nodes ->
  forall nr max_stored r locals r',
    (forall m, stored (self r) m -> expanded_from_root problem m) ->
    solve_loop fuel problem nr max_stored r = Ok (locals, r') ->
    forall n, final_search_node locals = Some n ->
              expanded_from_root problem n.
Proof.
  intros Hstrategy. induction fuel as [|fuel IH];
    intros nr ms r locals r' Hinv; simpl; [done|].
  destruct (_extract_next_search_node_to_expand problem (self r))
    as [[[node|] b]| |] eqn:Hext; simpl; [| |done..].
  - apply stored_extract in Hext as [Hnode Hsub].
    destruct (is_goal problem (state node)).
    { intros [= <- <-] n [= <-]. by apply Hinv. }
    destruct (budget_reached b nr); [by intros [= <- <-]|].
    fold (after_extraction r node b).
    destruct (for_each_successor _ _ _ _ _) as [[ms1 r1]| |] eqn:Hfor;
      simpl; [|done..].
    apply IH.
    eapply for_each_successor_on_graph; [done|by apply Hinv|done| |done].
    simpl. intros m Hm. by apply Hinv, Hsub.
  - by intros [= <- <-].
Qed.

(** X20: when the hooks of the strategy store no node of their own making,
    every solution path a run returns is a path of the problem: each state
    after the first is the successor state of an operator result of the
    state before it. *)
Theorem solution_path_follows_problem fuel b problem res r path :
  strategy_stores_offered_nodes ->
  solve_problem fuel b problem = Ok (res, r) ->
  solution_path res = Some path ->
  path_of_problem problem path.
Proof.
  intros Hstrategy
    (b1 & q & q' & locals & Hinit & Hopen & Hpush & Hloop & ->)%solve_problem_inv.
  simpl. destruct (final_search_node locals) as [node|] eqn:Hfinal; [|done].
  intros [= <-]. apply path_of_expanded_node.
  eapply solve_loop_on_graph; [done| |done..].
  intros m Hm. simpl in Hm.
  apply (stored_set_open_push _ _ _ _ _ Hopen Hpush) in Hm as [->|Hm]; [done|].
  destruct Hstrategy as [Hi _]. apply (Hi _ _ _ _ Hinit) in Hm.
  by apply stored_reset_solver in Hm.
Qed.

End EngineExtras.

(** * The further properties on the samples *)

Module SampleExtras.
Import Sample SampleFacts.

Lemma queue_a_sync : queue_sync queue_a.
Proof.
  destruct (run_ops_sync [OpPush node_a] SearchNodesPriorityQueue_init
              queue_sync_init) as (q & Hrun & Hsync); [vm_compute; tauto|].
  assert (run_ops SearchNodesPriorityQueue_init [OpPush node_a] = Ok queue_a)
    as Hq by (vm_compute; reflexivity).
  rewrite Hq in Hrun. by injection Hrun as <-.
Qed.

Lemma queue_bc_sync : queue_sync queue_bc.
Proof.
  destruct (run_ops_sync [OpPush node_b; OpPush node_c]
              SearchNodesPriorityQueue_init queue_sync_init)
    as (q & Hrun & Hsync); [vm_compute; tauto|].
  assert (run_ops SearchNodesPriorityQueue_init [OpPush node_b; OpPush node_c]
          = Ok queue_bc) as Hq by (vm_compute; reflexivity).
  rewrite Hq in Hrun. by injection Hrun as <-.
Qed.

Lemma ucs_keeps_open_in_sync problem n b b' :
  open_in_sync b -> ucs_open_successor_node problem n b = Ok b' ->
  open_in_sync b'.
Proof.
  intros Hsync. unfold ucs_open_successor_node.
  destruct (open b) as [q|] eqn:Hopen; [|done].
  pose proof (Hsync q Hopen) as Hq.
  destruct (open_get_node_by_state q (state n)) as [old|].
  - destruct (g_cost n <? g_cost old); [|by intros [= <-]].
    destruct (extract_node q old) as [q1| |] eqn:Hextract; simpl; [|done..].
    destruct (push_node q1 n) as [q2| |] eqn:Hpush; simpl; [|done..].
    intros [= <-] q0 [= <-].
    eapply queue_sync_push; [|done]. by eapply queue_sync_extract.
  - destruct (match close b with Some c => _ | None => _ end);
      [by intros [= <-]|].
    destruct (push_node q n) as [q1| |] eqn:Hpush; simpl; [|done..].
    intros [= <-] q0 [= <-]. by eapply queue_sync_push.
Qed.

Lemma push_node_lookup_sample :
  exists q',
    push_node queue_a node_b = Ok q' /\
    open_has_state q' "B" = true /\
    open_get_node_by_state q' "B" = Some node_b /\
    forall s, s <> "B" ->
              open_get_node_by_state q' s = open_get_node_by_state queue_a s.
Proof.
  assert (exists q', push_node queue_a node_b = Ok q') as [q' Hpush]
    by (vm_compute; eauto).
  exists q'. split; [exact Hpush|].
  exact (push_node_lookup queue_a node_b q' Hpush).
Defined.

Lemma push_then_extract_sample :
  exists q1,
    push_node queue_a node_b = Ok q1 /\ extract_node q1 node_b = Ok queue_a.
Proof. apply (push_then_extract queue_a node_b queue_a_sync). reflexivity. Defined.

Lemma peek_agrees_with_pop_sample :
  exists node q',
    peek_next_node queue_bc = Ok node /\
    pop_next_node queue_bc = Ok (node, q') /\
    open_get_node_by_state queue_bc (state node) = Some node.
Proof. apply (peek_agrees_with_pop queue_bc queue_bc_sync). reflexivity. Defined.

Lemma removal_lookup_sample :
  exists q',
    pop_next_node queue_bc = Ok (node_c, q') /\
    open_get_node_by_state queue_bc "C" = Some node_c /\
    open_has_state q' "C" = false /\
    forall s, s <> "C" ->
              open_get_node_by_state q' s = open_get_node_by_state queue_bc s.
Proof.
  assert (exists q', pop_next_node queue_bc = Ok (node_c, q')) as [q' Hpop]
    by (vm_compute; eauto).
  exists q'. split; [exact Hpop|].
  exact (removal_lookup queue_bc node_c q' queue_bc_sync (or_introl Hpop)).
Defined.

Lemma open_len_changes_sample :
  exists q',
    pop_next_node queue_bc = Ok (node_c, q') /\
    open_len q' = open_len queue_bc - 1.
Proof.
  assert (exists q', pop_next_node queue_bc = Ok (node_c, q')) as [q' Hpop]
    by (vm_compute; eauto).
  exists q'. split; [exact Hpop|].
  destruct (open_len_changes queue_bc node_c q' queue_bc_sync) as (_ & Hlen & _).
  exact (Hlen Hpop).
Defined.

Lemma extract_stale_node_sample :
  extract_node queue_a node_a_again = Raise KeyError.
Proof.
  apply (extract_stale_node queue_a node_a_again node_a queue_a_sync);
    [reflexivity|discriminate].
Defined.

Lemma is_empty_iff_sample :
  (is_empty queue_a = true <-> open_len queue_a = 0) /\
  (is_empty queue_a = true <-> forall s, open_has_state queue_a s = false).
Proof. exact (is_empty_iff queue_a queue_a_sync). Defined.

Lemma add_then_remove_sample :
  exists c1,
    add_node close_a node_b = Ok c1 /\
    has_node c1 node_b = true /\
    close_get_node_by_state c1 (state node_b) = Some node_b /\
    close_len c1 = close_len close_a + 1 /\
    remove_node c1 node_b = Ok close_a.
Proof. apply (add_then_remove close_a node_b). reflexivity. Defined.

Lemma remove_node_by_state_sample :
  exists c',
    remove_node close_a node_a_again = Ok c' /\
    close_has_state c' (state node_a_again) = false /\
    close_len c' = close_len close_a - 1 /\
    forall s, s <> state node_a_again ->
              close_get_node_by_state c' s = close_get_node_by_state close_a s.
Proof. apply (remove_node_by_state close_a node_a_again node_a). reflexivity. Defined.

Lemma replace_closed_node_sample :
  has_node close_a node_a_again = false /\
  close_has_state close_a (state node_a_again) = true /\
  exists c1 c2,
    remove_node close_a node_a = Ok c1 /\
    add_node c1 node_a_again = Ok c2 /\
    has_node c2 node_a_again = true /\
    has_node c2 node_a = false /\
    close_len c2 = close_len close_a.
Proof.
  apply (replace_closed_node close_a node_a node_a_again);
    [reflexivity|reflexivity|discriminate].
Defined.

Lemma goal_at_initial_state_sample :
  exists r,
    solve_problem 1 (solver true (Some 0)) chain_from_goal =
    Ok ({| solution_path := Some ["D"];
           nr_expanded_states := 0;
           result_max_nr_stored_states := 1;
           stop_reason := CompletedRunSuccessfully |}, r).
Proof.
  apply (goal_at_initial_state 0 (solver true (Some 0)) chain_from_goal);
    reflexivity.
Defined.

Lemma budget_spent_at_start_sample :
  exists r,
    solve_problem 1 (solver true (Some 0)) chain =
    Ok ({| solution_path := None;
           nr_expanded_states := 0;
           result_max_nr_stored_states := 1;
           stop_reason := ExceededMaxNrStatesToExpand |}, r).
Proof.
  apply (budget_spent_at_start 0 (solver true (Some 0)) chain 0);
    [reflexivity|reflexivity|reflexivity|lia].
Defined.

Lemma nothing_opened_sample :
  exists r,
    solve_problem 2 rejecting_solver chain =
    Ok ({| solution_path := None;
           nr_expanded_states := 1;
           result_max_nr_stored_states := 1;
           stop_reason := CompletedRunSuccessfully |}, r).
Proof.
  apply (nothing_opened 0 rejecting_solver chain);
    [reflexivity|reflexivity|reflexivity|].
  right. intros n. reflexivity.
Defined.

Lemma extract_closed_state_raises_sample :
  _extract_next_search_node_to_expand chain clashing_solver
    = Raise AssertionError.
Proof.
  assert (exists q', pop_next_node queue_a = Ok (node_a, q')) as [q' Hpop]
    by (vm_compute; eauto).
  apply (extract_closed_state_raises chain clashing_solver queue_a close_a
           node_a q'); [reflexivity|reflexivity|reflexivity|exact Hpop|reflexivity].
Defined.

Lemma extract_moves_one_node_sample :
  exists b',
    _extract_next_search_node_to_expand chain loaded_solver
      = Ok (Some node_c, b') /\
    nr_stored b' = nr_stored loaded_solver /\
    exists c', close b' = Some c' /\ has_node c' node_c = true.
Proof.
  assert (exists b', _extract_next_search_node_to_expand chain loaded_solver
                     = Ok (Some node_c, b')) as [b' Hext]
    by (vm_compute; eauto).
  exists b'. split; [exact Hext|].
  destruct (extract_moves_one_node chain loaded_solver node_c b') as [Hclose _];
    [|exact Hext|exact (Hclose eq_refl)].
  intros q [= <-]. exact queue_bc_sync.
Defined.

Lemma no_budget_never_exceeded_sample :
  exists res r,
    solve_problem 10 (solver true None) chain = Ok (res, r) /\
    stop_reason res = CompletedRunSuccessfully.
Proof.
  assert (exists res r,
            solve_problem 10 (solver true None) chain = Ok (res, r))
    as (res & r & Hrun) by (vm_compute; eauto).
  exists res, r. split; [exact Hrun|].
  apply (no_budget_never_exceeded 10 (solver true None) chain res r);
    [by apply ucs_preserves|reflexivity|exact Hrun].
Defined.

Lemma nr_expanded_states_counts_expansions_sample :
  exists res r,
    solve_problem 10 (solver true (Some 1)) chain = Ok (res, r) /\
    0 <= nr_expanded_states res /\
    nr_expanded_states res =
      nr_extractions (history r)
      - match solution_path res, stop_reason res with
        | None, CompletedRunSuccessfully => 0
        | _, _ => 1
        end.
Proof.
  assert (exists res r,
            solve_problem 10 (solver true (Some 1)) chain = Ok (res, r))
    as (res & r & Hrun) by (vm_compute; eauto).
  exists res, r. split; [exact Hrun|].
  exact (nr_expanded_states_counts_expansions 10 _ chain res r Hrun).
Defined.

Lemma open_stays_in_sync_sample :
  exists res r,
    solve_problem 10 (solver true None) diamond = Ok (res, r) /\
    open_in_sync (self r).
Proof.
  assert (exists res r,
            solve_problem 10 (solver true None) diamond = Ok (res, r))
    as (res & r & Hrun) by (vm_compute; eauto).
  exists res, r. split; [exact Hrun|].
  apply (open_stays_in_sync 10 (solver true None) diamond res r);
    [|exact ucs_keeps_open_in_sync|exact Hrun].
  intros problem b b' Hsync [= <-]. exact Hsync.
Defined.

Lemma solution_path_follows_problem_sample :
  exists res r path,
    solve_problem 10 (solver true None) diamond = Ok (res, r) /\
    solution_path res = Some path /\
    path_of_problem diamond path.
Proof.
  assert (exists res r path,
            solve_problem 10 (solver true None) diamond = Ok (res, r) /\
            solution_path res = Some path) as (res & r & path & Hrun & Hpath).
  { vm_compute. eauto. }
  exists res, r, path. split; [exact Hrun|]. split; [exact Hpath|].
  exact (solution_path_follows_problem 10 (solver true None) diamond res r path
           ucs_stores_offered_nodes Hrun Hpath).
Defined.

End SampleExtras.
